(** * Ableist-language detector: the dependency-pattern matchers

    A shallow embedding of [ability_skills_decoder/decoder.py] and of the
    token predicates of [ability_skills_decoder/extract_terms.py], together
    with the part of the spaCy [Doc]/[Token]/[Span] interface those functions
    read: token attributes, the head link, the children, the right edge of a
    subtree and [Doc] slicing. *)

From Stdlib Require Import Ascii String Lia Sorted DecimalString DecimalNat.
From stdpp Require Import gmap strings list.

(** ** The parsed document *)

(** What the parser stores for one token.  The head is kept as the absolute
    position of the head token; the root of a sentence is its own head. *)
Record TokenC := mkTokenC {
  text : string;
  whitespace_ : bool;
  lemma_ : string;
  pos_ : string;
  dep_ : string;
  head_i : nat
}.

(** A [Doc] is the sequence of the per-token data. *)
Abbreviation Doc := (list TokenC).

(** A [Token] is a view of one position of a [Doc]: [token.i] and the data
    stored there. *)
Record Token := mkToken {
  i : nat;
  data :> TokenC
}.

#[global] Instance TokenC_eq_dec : EqDecision TokenC.
Proof. solve_decision. Defined.

#[global] Instance Token_eq_dec : EqDecision Token.
Proof. solve_decision. Defined.

(** [for token in doc]: the tokens in sentence order, each knowing its
    position. *)
Definition tokens (doc : Doc) : list Token := imap mkToken doc.

(** [doc[k]] for a position inside the document. *)
Definition token_at (doc : Doc) (k : nat) : option Token :=
  mkToken k <$> doc !! k.

(** [token.head].  A parser always leaves the head inside the document; the
    other branch only makes the function total. *)
Definition head (doc : Doc) (token : Token) : Token :=
  default token (token_at doc (head_i token)).

(** [ancestor.is_ancestor(descendant)], reflexively: following the head
    links from position [k] reaches position [a] in at most [fuel] steps. *)
Fixpoint reaches (doc : Doc) (fuel : nat) (a k : nat) : bool :=
  (a =? k)%nat ||
  match fuel with
  | O => false
  | S fuel' =>
      match doc !! k with
      | Some c => reaches doc fuel' a (head_i c)
      | None => false
      end
  end.

(** The position reached from [k] after exactly [m] head links, if the
    links stay inside the document. *)
Fixpoint nth_ancestor (doc : Doc) (m k : nat) : option nat :=
  match m with
  | O => Some k
  | S m' =>
      match doc !! k with
      | Some c => nth_ancestor doc m' (head_i c)
      | None => None
      end
  end.

(** The positions of the subtree of position [a]: [a]'s transitive
    syntactic descendants (and [a] itself when it is in the document). *)
Definition subtree (doc : Doc) (a : nat) : list nat :=
  List.filter (reaches doc (length doc) a) (seq 0 (length doc)).

(** [token.right_edge.i]: the highest position of the token's subtree. *)
Definition right_edge_i (doc : Doc) (token : Token) : nat :=
  foldr Nat.max (i token) (subtree doc (i token)).

(** [token.right_edge]. *)
Definition right_edge (doc : Doc) (token : Token) : Token :=
  default token (token_at doc (right_edge_i doc token)).

(** [token.children]: the tokens whose head is [token], in sentence order. *)
Definition children (doc : Doc) (token : Token) : list Token :=
  List.filter
    (fun child : Token =>
       (head_i child =? i token)%nat && negb (i child =? i token)%nat)
    (tokens doc).

(** ** Spans *)

(** [doc[start:stop]] is a [Span]; it remembers the document and the two
    normalised bounds. *)
Record Span := mkSpan {
  span_doc : Doc;
  start : nat;
  end_ : nat
}.

#[global] Instance Span_eq_dec : EqDecision Span.
Proof. solve_decision. Defined.

(** spaCy's [util.normalize_slice], which [Doc.__getitem__] applies to the
    bounds of a slice before it builds the [Span].  Both bounds are token
    positions here, hence not negative and never [None]; what is left is
    [start = min(length, max(0, start))] and
    [stop = min(length, max(start, stop))], so that a stop before the start
    gives the empty span at the start. *)
Definition normalize_slice (len start stop : nat) : nat * nat :=
  let start := Nat.min len (Nat.max 0 start) in
  let stop := Nat.min len (Nat.max start stop) in
  (start, stop).

(** [doc[start:stop]] *)
Definition doc_slice (doc : Doc) (start stop : nat) : Span :=
  let '(start, stop) := normalize_slice (length doc) start stop in
  mkSpan doc start stop.

(** The tokens a span covers. *)
Definition span_tokens (s : Span) : list TokenC :=
  take (end_ s - start s) (drop (start s) (span_doc s)).

Definition text_with_ws (c : TokenC) : string :=
  text c +:+ (if whitespace_ c then " " else "").

(** [text[:-1]] *)
Fixpoint drop_last_char (s : string) : string :=
  match s with
  | EmptyString => EmptyString
  | String _ EmptyString => EmptyString
  | String a rest => String a (drop_last_char rest)
  end.

(** [span.text]: the covered tokens with their trailing spaces, without the
    trailing space of the last one. *)
Definition span_text (s : Span) : string :=
  let t := String.concat "" (text_with_ws <$> span_tokens s) in
  match last (span_tokens s) with
  | Some c => if whitespace_ c then drop_last_char t else t
  | None => t
  end.

(** ** extract_terms.py *)

Definition is_verb (token : Token) : bool :=
  bool_decide (pos_ token = "VERB") &&
  negb (bool_decide (dep_ token ∈ ({[ "aux"; "auxpass"; "neg" ]} : gset string))).

Definition is_object (token : Token) : bool :=
  bool_decide (pos_ token = "NOUN") && bool_decide (dep_ token = "dobj").

Definition get_verbs (spacy_doc : Doc) (return_lemma : bool)
  : if return_lemma then list string else list Token :=
  let verbs := List.filter is_verb (tokens spacy_doc) in
  match return_lemma return (if return_lemma then list string else list Token) with
  | true => (fun token : Token => lemma_ token) <$> verbs
  | false => verbs
  end.

Definition get_objects (spacy_doc : Doc) (return_lemma : bool)
  : if return_lemma then list string else list Token :=
  let noun_objects := List.filter is_object (tokens spacy_doc) in
  match return_lemma return (if return_lemma then list string else list Token) with
  | true => (fun token : Token => lemma_ token) <$> noun_objects
  | false => noun_objects
  end.

(** ** Statements with effects

    The Python functions build their result in a local list with [append],
    read module-level word lists and print.  They are written in a small
    state monad, through stdpp's [mret]/[mbind] notations. *)
Definition State (S A : Type) : Type := S -> A * S.

#[global] Instance state_ret {S} : MRet (State S) :=
  fun A (a : A) (s : S) => (a, s).

#[global] Instance state_bind {S} : MBind (State S) :=
  fun A B (f : A -> State S B) (m : State S A) (s : S) =>
    let '(a, s') := m s in f a s'.

Definition gets {S A} (f : S -> A) : State S A := fun s => (f s, s).
Definition modify {S} (f : S -> S) : State S unit := fun s => (tt, f s).

(** [for x in l: body] *)
Fixpoint for_each {S A} (l : list A) (body : A -> State S unit) : State S unit :=
  match l with
  | [] => mret tt
  | x :: l' => body x ;; for_each l' body
  end.

(** [acc.append(x)] on the local list the function is building. *)
Definition append {A} (x : A) : State (list A) unit :=
  modify (fun acc => acc ++ [x]).

(** Run a function body that starts with [acc = []] and ends with
    [return acc]. *)
Definition returning_list {A} (body : State (list A) unit) : list A :=
  (body []).2.

(** [get_verb_phrases] collects, for every direct object, the triple
    [[token.head, [child for child in token.children], token]]. *)
Definition VerbPhrase : Type := Token * list Token * Token.

Definition get_verb_phrases (spacy_doc : Doc) : list VerbPhrase :=
  returning_list (
    for_each (tokens spacy_doc) (fun token =>
      if bool_decide (dep_ token = "dobj") then
        let phrase := (head spacy_doc token, children spacy_doc token, token) in
        append phrase
      else mret tt)).

(** ** decoder.py *)

(** The body of the loop of [match_dependent_ableist_verbs] for one token. *)
Definition match_dependent_step (doc : Doc)
    (ableist_verbs_object_dependent ableist_objects : gset string)
    (token : Token) : State (list Span) unit :=
  if bool_decide (dep_ token = "dobj")
     && bool_decide (lemma_ token ∈ ableist_objects) then
    if is_verb (head doc token)
       && bool_decide (lemma_ (head doc token) ∈ ableist_verbs_object_dependent) then
      let matched_phrase :=
        doc_slice doc (i (head doc token)) (i (right_edge doc token) + 1) in
      append matched_phrase
    else mret tt
  else mret tt.

Definition match_dependent_ableist_verbs (doc : Doc)
    (ableist_verbs_object_dependent ableist_objects : gset string) : list Span :=
  returning_list (
    for_each (tokens doc)
      (match_dependent_step doc ableist_verbs_object_dependent ableist_objects)).

(** What [find_ableist_terms] can see and change outside its arguments: the
    word lists imported from [ableist_word_list] and the standard output,
    kept as the list of the values printed so far. *)
Record World := mkWorld {
  ABLEIST_VERBS : gset string;
  ABLEIST_OBJECTS : gset string;
  ABLEIST_VERBS_OBJECT_DEPENDENT : gset string;
  stdout : list (list VerbPhrase)
}.

Definition print (v : list VerbPhrase) : State World unit :=
  modify (fun w =>
    mkWorld (ABLEIST_VERBS w) (ABLEIST_OBJECTS w)
            (ABLEIST_VERBS_OBJECT_DEPENDENT w) (stdout w ++ [v])).

(** The standalone matcher: the two statements of [find_ableist_terms] that
    compute [matched_verbs] from the parsed document. *)
Definition matched_verbs (ableist_verbs : gset string) (job_description_doc : Doc)
  : list Token :=
  let jd_verbs := get_verbs job_description_doc false in
  List.filter (fun verb : Token => bool_decide (lemma_ verb ∈ ableist_verbs)) jd_verbs.

Section Entry.

(** The loaded spaCy pipeline, [nlp = spacy.load("en_core_web_sm")]. *)
Variable nlp : string -> Doc.

Definition find_ableist_terms (job_description_text : string)
  : State World (list Token) :=
  let job_description_doc := nlp job_description_text in
  ableist_verbs ← gets ABLEIST_VERBS;
  let matched_verbs := matched_verbs ableist_verbs job_description_doc in
  let jd_verb_phrases := get_verb_phrases job_description_doc in
  print jd_verb_phrases;;
  mret matched_verbs.

End Entry.

(** A result item as the callers of the entry point tell them apart
    ([isinstance(ableist_term, spacy.tokens.Span)]): a single token or a
    phrase. *)
Inductive Match :=
| MToken (token : Token)
| MSpan (span : Span).

(** The phrase the dependent matcher builds for a direct object:
    [doc[token.head.i : token.right_edge.i + 1]]. *)
Definition matched_phrase (doc : Doc) (token : Token) : Span :=
  doc_slice doc (i (head doc token)) (i (right_edge doc token) + 1).

(** The spans appended while the loop of the dependent matcher visits one
    token. *)
Definition emitted (doc : Doc) (dependent_verbs dependent_objects : gset string)
    (token : Token) : list Span :=
  returning_list (match_dependent_step doc dependent_verbs dependent_objects token).

(** The join condition of the dependent matcher in the words of its
    contract: the lemma of the object is listed, its head is a verb that is
    neither an auxiliary nor a negation, and the lemma of that verb is
    listed. *)
Definition join_condition (doc : Doc) (dependent_verbs dependent_objects : gset string)
    (obj : Token) : Prop :=
  lemma_ obj ∈ dependent_objects
  ∧ (pos_ (head doc obj) = "VERB"
     ∧ dep_ (head doc obj) ≠ "aux"
     ∧ dep_ (head doc obj) ≠ "auxpass"
     ∧ dep_ (head doc obj) ≠ "neg")
  ∧ lemma_ (head doc obj) ∈ dependent_verbs.

(** The same test as the code evaluates it, dependency label included. *)
Definition qualifies (doc : Doc) (dependent_verbs dependent_objects : gset string)
    (token : Token) : bool :=
  (bool_decide (dep_ token = "dobj")
   && bool_decide (lemma_ token ∈ dependent_objects))
  && (is_verb (head doc token)
      && bool_decide (lemma_ (head doc token) ∈ dependent_verbs)).

(** ** extract_terms.py, continued *)

Definition get_nouns (spacy_doc : Doc) (return_lemma : bool)
  : if return_lemma then list string else list Token :=
  let nouns :=
    List.filter (fun token : Token => bool_decide (pos_ token = "NOUN"))
      (tokens spacy_doc) in
  match return_lemma return (if return_lemma then list string else list Token) with
  | true => (fun token : Token => lemma_ token) <$> nouns
  | false => nouns
  end.

(** *** The content model reference table

    The frame read from the O*NET file has the columns "Element ID",
    "Element Name" and "Description"; a frame is the list of its rows.
    A string pattern made of one-byte characters begins a string exactly
    when its bytes begin the bytes of the string. *)
Record Row := mkRow {
  Element_ID : string;
  Element_Name : string;
  Description : string
}.

#[global] Instance Row_eq_dec : EqDecision Row.
Proof. solve_decision. Defined.

Abbreviation DataFrame := (list Row).

(** [series.str.startswith(pat)] *)
Definition str_startswith (pat : string) (series : list string) : list bool :=
  String.prefix pat <$> series.

(** [len(s)] for a Python string.  A string is kept as the bytes of its
    UTF-8 encoding; its length is the number of its characters, that is, of
    the bytes that do not continue a character (those of the form
    [10xxxxxx]). *)
Definition is_continuation_byte (c : ascii) : bool :=
  match c with
  | Ascii _ _ _ _ _ _ b6 b7 => b7 && negb b6
  end.

Fixpoint py_len (s : string) : nat :=
  match s with
  | EmptyString => 0
  | String c s' => (if is_continuation_byte c then 0 else 1) + py_len s'
  end.

(** [series.str.len()] *)
Definition str_len (series : list string) : list nat :=
  py_len <$> series.

(** [series == n] *)
Definition series_eq (series : list nat) (n : nat) : list bool :=
  (fun x => x =? n) <$> series.

(** [mask1 & mask2] and [mask1 | mask2] *)
Definition mask_and (m1 m2 : list bool) : list bool := zip_with andb m1 m2.
Definition mask_or (m1 m2 : list bool) : list bool := zip_with orb m1 m2.

(** [df[mask]]: the rows whose mask entry is true, in the order of the
    frame. *)
Definition select_rows (df : DataFrame) (mask : list bool) : DataFrame :=
  fst <$> List.filter snd (zip df mask).

Definition get_abilities (df : DataFrame) : DataFrame :=
  let abilities_df :=
    select_rows df
      (mask_and (str_startswith "1.A" (Element_ID <$> df))
                (series_eq (str_len (Element_ID <$> df)) 9)) in
  abilities_df.

Definition get_skills (df : DataFrame) : DataFrame :=
  let skills_df :=
    select_rows df
      (mask_and
         (mask_or (str_startswith "2.A" (Element_ID <$> df))
                  (str_startswith "2.B" (Element_ID <$> df)))
         (series_eq (str_len (Element_ID <$> df)) 7)) in
  skills_df.

(** The same two row tests, row by row. *)
Definition is_ability_row (r : Row) : bool :=
  String.prefix "1.A" (Element_ID r) && (py_len (Element_ID r) =? 9).

Definition is_skill_row (r : Row) : bool :=
  (String.prefix "2.A" (Element_ID r) || String.prefix "2.B" (Element_ID r))
  && (py_len (Element_ID r) =? 7).

(** *** Representative terms of two corpora *)

(** [acc.extend(xs)] on the local list the function is building. *)
Definition extend {A} (xs : list A) : State (list A) unit :=
  modify (fun acc => acc ++ xs).

(** [collections.Counter(l)]: one count per distinct element, raised by one
    at each occurrence. *)
Definition Counter (l : list string) : gmap string nat :=
  foldl (fun counter x => <[x := S (default 0 (counter !! x))]> counter) ∅ l.

(** [counter[x]]: a missing key counts zero. *)
Definition counter_get (counter : gmap string nat) (x : string) : nat :=
  default 0 (counter !! x).

(** [sorted(l, key=key)]: the stable sort in ascending order of the key.
    An element is put before the first one whose key is not smaller, so
    that elements with equal keys keep the order they had. *)
Fixpoint insert_by {A} (key : A → Z) (x : A) (l : list A) : list A :=
  match l with
  | [] => [x]
  | y :: l' =>
      if (key y <? key x)%Z then y :: insert_by key x l' else x :: y :: l'
  end.

Definition sorted {A} (key : A → Z) (l : list A) : list A :=
  foldr (insert_by key) [] l.

Section Corpus.

(** The loaded spaCy pipeline; [nlp.pipe(corpus)] parses the texts one by
    one, in order. *)
Variable nlp : string → Doc.

(** [list(s)] for a set [s]: the elements in the order in which Python
    happens to iterate over the set. *)
Variable list_of_set : gset string → list string.

(** The verb lemmas of all the texts of a corpus (the loops that fill
    [abilities_verbs] and [skills_verbs]). *)
Definition corpus_verbs (corpus : list string) : list string :=
  returning_list (
    for_each (nlp <$> corpus) (fun doc => extend (get_verbs doc true))).

Definition get_representative_terms (abilities_corpus skills_corpus : list string)
  : list string * list string :=
  let abilities_verbs := corpus_verbs abilities_corpus in
  let skills_verbs := corpus_verbs skills_corpus in
  let abilities_verbs_counter := Counter abilities_verbs in
  let skills_verbs_counter := Counter skills_verbs in
  let unique_abilities_verbs :=
    sorted (fun x => (- Z.of_nat (counter_get abilities_verbs_counter x))%Z)
      (list_of_set (list_to_set abilities_verbs ∖ list_to_set skills_verbs)) in
  let unique_skills_verbs :=
    sorted (fun x => (- Z.of_nat (counter_get skills_verbs_counter x))%Z)
      (list_of_set (list_to_set skills_verbs ∖ list_to_set abilities_verbs)) in
  (unique_abilities_verbs, unique_skills_verbs).

Definition get_objects_corpus (corpus : list string) : list string :=
  let noun_objects :=
    returning_list (
      for_each (nlp <$> corpus) (fun doc => extend (get_objects doc true))) in
  list_of_set (list_to_set noun_objects).

Definition get_nouns_corpus (corpus : list string) : list string :=
  let nouns :=
    returning_list (
      for_each (nlp <$> corpus) (fun doc => extend (get_nouns doc true))) in
  list_of_set (list_to_set nouns).

End Corpus.

(** How often a lemma occurs in a list. *)
Definition occurrences (x : string) (l : list string) : nat :=
  length (List.filter (fun y => bool_decide (y = x)) l).

(** A parser for the examples: it knows two sentences. *)
Definition sample_nlp (job_description_text : string) : Doc :=
  if bool_decide (job_description_text = "move your hands and lift your feet")
  then [ mkTokenC "move" true "move" "VERB" "ROOT" 0;
         mkTokenC "your" true "your" "PRON" "poss" 2;
         mkTokenC "hands" true "hand" "NOUN" "dobj" 0;
         mkTokenC "and" true "and" "CCONJ" "cc" 0;
         mkTokenC "lift" true "lift" "VERB" "conj" 0;
         mkTokenC "your" true "your" "PRON" "poss" 6;
         mkTokenC "feet" false "foot" "NOUN" "dobj" 4 ]
  else if bool_decide (job_description_text = "move them")
  then [ mkTokenC "move" true "move" "VERB" "ROOT" 0;
         mkTokenC "them" false "they" "PRON" "dobj" 0 ]
  else [].

(** ** The model-serving wrappers

    [decoder_mlflow_local.py], [decoder_mlflow_registry.py] and
    [detector_mlflow_local.py] wrap the entry point in an MLflow model whose
    [predict] turns the matches into a dictionary of dictionaries. *)

(** [str(n)] and [f"{n}"] for an integer that is not negative. *)
Definition str_nat (n : nat) : string :=
  NilEmpty.string_of_uint (Nat.to_uint n).

(** The newline character. *)
Definition nl : string := String (ascii_of_nat 10) EmptyString.

(** The exceptions these functions can meet. *)
Inductive Exn :=
| AttributeError
| KeyError
| OSError
| UnicodeDecodeError
| MlflowException.

(** Statements that change a state and may raise: the state reached is
    kept when an exception leaves the function. *)
Definition Exc (S A : Type) : Type := S → (Exn + A) * S.

#[global] Instance exc_ret {S} : MRet (Exc S) :=
  fun A (a : A) (s : S) => (inr a, s).

#[global] Instance exc_bind {S} : MBind (Exc S) :=
  fun A B (f : A → Exc S B) (m : Exc S A) (s : S) =>
    match m s with
    | (inl e, s') => (inl e, s')
    | (inr a, s') => f a s'
    end.

Definition raise {S A} (e : Exn) : Exc S A := fun s => (inl e, s).

(** [for x in l: body] *)
Fixpoint for_each_exc {S A} (l : list A) (body : A → Exc S unit) : Exc S unit :=
  match l with
  | [] => mret tt
  | x :: l' => body x ;; for_each_exc l' body
  end.

(** What the body of a loop asks for when it ends: go on, or [break]. *)
Inductive Flow := Continue | Break.

(** [for x in l: body], where the body may [break]. *)
Fixpoint for_each_break {S A} (l : list A) (body : A → Exc S Flow) : Exc S unit :=
  match l with
  | [] => mret tt
  | x :: l' =>
      flow ← body x;
      match flow with
      | Break => mret tt
      | Continue => for_each_break l' body
      end
  end.

(** The local dictionary [terms] of a [predict] and the standard output. *)
Record Env (V : Type) := mkEnv {
  terms : gmap string (gmap string V);
  console : list string
}.
Arguments mkEnv {V} _ _.
Arguments terms {V} _.
Arguments console {V} _.

(** [print(line)] *)
Definition print_line {V} (line : string) : Exc (Env V) unit :=
  fun env => (inr tt, mkEnv (terms env) (console env ++ [line])).

(** [terms[key] = dict()] *)
Definition new_entry {V} (key : string) : Exc (Env V) unit :=
  fun env => (inr tt, mkEnv (<[key := ∅]> (terms env)) (console env)).

(** [terms[key][k] = v]: the dictionary stored under [key] is looked up and
    changed in place. *)
Definition set_item {V} (key k : string) (v : V) : Exc (Env V) unit :=
  fun env =>
    match terms env !! key with
    | Some entry =>
        (inr tt, mkEnv (<[key := <[k := v]> entry]> (terms env)) (console env))
    | None => (inl KeyError, env)
    end.

(** The value of a [getattr], or the [AttributeError] it raises. *)
Definition attribute {S A} (value : option A) : Exc S A :=
  match value with
  | Some a => mret a
  | None => raise AttributeError
  end.

(** A value stored in an entry: a string the wrapper made, or an attribute
    of a match as [getattr] returned it. *)
Inductive Value (Attr : Type) :=
| VStr (s : string)
| VAttr (a : Attr).
Arguments VStr {Attr} _.
Arguments VAttr {Attr} _.

Module decoder_mlflow_local.
Section Model.

(** The attribute values of spaCy tokens and spans, and [getattr] on a
    match ([None] when the attribute does not exist). *)
Variable Attr : Type.
Variable getattr : Match → string → option Attr.

(** [span.lemma_] *)
Variable span_lemma_ : Span → string.

(** The function the model wraps, [self.func]. *)
Variable func : string → list Match.

(** The loop of [predict] over the results. *)
Definition collect (results : list Match) (properties : list string)
  : Exc (Env (Value Attr)) unit :=
  for_each_exc results (fun ableist_term =>
    match ableist_term with
    | MSpan span =>
        let key := str_nat (start span) +:+ ":" +:+ str_nat (end_ span) in
        print_line ("PHRASE: " +:+ span_text span
                    +:+ " | LEMMA: " +:+ span_lemma_ span
                    +:+ " | POSITION: " +:+ key);;
        new_entry key;;
        set_item key "ableist_term" (VStr (span_text span));;
        for_each_exc properties (fun at_ =>
          a ← attribute (getattr ableist_term at_);
          set_item key at_ (VAttr a))
    | MToken token =>
        let key := str_nat (i token) in
        print_line ("PHRASE: " +:+ text token
                    +:+ " | LEMMA: " +:+ lemma_ token
                    +:+ " | POSITION: " +:+ key);;
        new_entry key;;
        set_item key "ableist_term" (VStr (text token));;
        for_each_exc properties (fun at_ =>
          a ← attribute (getattr ableist_term at_);
          set_item key at_ (VAttr a))
    end).

(** [predict] from the call of [self.func] on, that is, from the text
    already loaded and the list of properties already taken from the model
    input, with the standard output so far: the dictionary returned or the
    exception raised, and the standard output after.  The statements before
    it are in [MLflowLanguageModel_predict] below. *)
Definition predict (input_text : string) (properties : list string)
    (stdout : list string)
  : (Exn + gmap string (gmap string (Value Attr))) * list string :=
  let results := func input_text in
  let '(outcome, env) := collect results properties (mkEnv ∅ stdout) in
  (match outcome with
   | inl e => inl e
   | inr _ => inr (terms env)
   end,
   console env).

End Model.

(** The key under which [predict] files a match, and the text it stores as
    ["ableist_term"]. *)
Definition key (ableist_term : Match) : string :=
  match ableist_term with
  | MSpan span => str_nat (start span) +:+ ":" +:+ str_nat (end_ span)
  | MToken token => str_nat (i token)
  end.

End decoder_mlflow_local.

(** *** The whole of [predict]

    [predict] receives the frame that [pd.json_normalize] makes of the
    request: one column per key, one row per request.  A column is looked up
    by its name and its first cell by the row label 0; the cells of "input"
    are file names, those of "properties" lists of names. *)
Record ModelInput := mkModelInput {
  input_column : option (list string);
  properties_column : option (list (list string))
}.

(** [column[0]]: [KeyError] when the frame has no such column or no row. *)
Definition first_cell {A} (column : option (list A)) : Exn + A :=
  match column with
  | Some (cell :: _) => inr cell
  | Some [] => inl KeyError
  | None => inl KeyError
  end.

(** What reading a file as text gives: its content, or [OSError] when it
    cannot be opened, or [UnicodeDecodeError] when it is not text. *)
Inductive FileRead :=
| Content (job_description_text : string)
| CannotOpen
| CannotDecode.

(** [load_from_file] *)
Definition load_from_file (read : string → FileRead) (filename : string)
  : Exn + string :=
  match read filename with
  | Content job_description_text => inr job_description_text
  | CannotOpen => inl OSError
  | CannotDecode => inl UnicodeDecodeError
  end.

(** [MLflowLanguageModel.predict] of [decoder_mlflow_local.py] from its
    first statement: the file named by the request is loaded, the list of
    properties is taken from the request, and the matches are filed. *)
Definition MLflowLanguageModel_predict (Attr : Type)
    (getattr : Match → string → option Attr) (span_lemma_ : Span → string)
    (func : string → list Match) (read : string → FileRead)
    (model_input : ModelInput) (stdout : list string)
  : (Exn + gmap string (gmap string (Value Attr))) * list string :=
  match first_cell (input_column model_input) with
  | inl e => (inl e, stdout)
  | inr filename =>
      match load_from_file read filename with
      | inl e => (inl e, stdout)
      | inr input_text =>
          match first_cell (properties_column model_input) with
          | inl e => (inl e, stdout)
          | inr properties =>
              decoder_mlflow_local.predict Attr getattr span_lemma_ func
                input_text properties stdout
          end
      end
  end.

(** A file system with one file, for the examples. *)
Definition sample_read (filename : string) : FileRead :=
  if bool_decide (filename = "job.txt") then Content "move them" else CannotOpen.

Module decoder_mlflow_registry.
Section Model.

Variable Attr : Type.
Variable getattr : Match → string → option Attr.
Variable span_lemma_ : Span → string.
Variable func : string → list Match.

(** The loop of [predict] over the results. *)
Definition collect (results : list Match) (properties : list string)
  : Exc (Env (Value Attr)) unit :=
  for_each_exc results (fun ableist_term =>
    match ableist_term with
    | MSpan span =>
        print_line ("PHRASE: " +:+ span_text span
                    +:+ " | LEMMA: " +:+ span_lemma_ span
                    +:+ " | POSITION: " +:+ str_nat (start span)
                    +:+ ":" +:+ str_nat (end_ span));;
        new_entry (str_nat (start span));;
        set_item (str_nat (start span)) "ableist_term" (VStr (span_text span));;
        set_item (str_nat (start span)) "end" (VStr (str_nat (end_ span)));;
        for_each_exc properties (fun at_ =>
          a ← attribute (getattr ableist_term at_);
          set_item (str_nat (start span)) at_ (VAttr a))
    | MToken token =>
        print_line ("PHRASE: " +:+ text token
                    +:+ " | LEMMA: " +:+ lemma_ token
                    +:+ " | POSITION: " +:+ str_nat (i token));;
        new_entry (str_nat (i token));;
        set_item (str_nat (i token)) "ableist_term" (VStr (text token));;
        set_item (str_nat (i token)) "end" (VStr (str_nat (i token)));;
        for_each_exc properties (fun at_ =>
          a ← attribute (getattr ableist_term at_);
          set_item (str_nat (i token)) at_ (VAttr a))
    end).

(** [predict] from the call of [self.func] on, that is, from the text
    already loaded and the list of properties already taken from the model
    input, with the standard output so far. *)
Definition predict (input_text : string) (properties : list string)
    (stdout : list string)
  : (Exn + gmap string (gmap string (Value Attr))) * list string :=
  let results := func input_text in
  let '(outcome, env) := collect results properties (mkEnv ∅ stdout) in
  (match outcome with
   | inl e => inl e
   | inr _ => inr (terms env)
   end,
   console env).

End Model.

(** Where a match begins and where it ends, as [predict] reads them. *)
Definition position (ableist_term : Match) : nat :=
  match ableist_term with
  | MSpan span => start span
  | MToken token => i token
  end.

Definition position_end (ableist_term : Match) : nat :=
  match ableist_term with
  | MSpan span => end_ span
  | MToken token => i token
  end.

(** *** Waiting for a registered model version *)

Inductive ModelVersionStatus :=
| PENDING_REGISTRATION
| FAILED_REGISTRATION
| READY.

#[global] Instance ModelVersionStatus_eq_dec : EqDecision ModelVersionStatus.
Proof. solve_decision. Defined.

Definition to_string (status : ModelVersionStatus) : string :=
  match status with
  | PENDING_REGISTRATION => "PENDING_REGISTRATION"
  | FAILED_REGISTRATION => "FAILED_REGISTRATION"
  | READY => "READY"
  end.

(** What the function does to the world: the requests for the model
    version it has sent, the stage transitions it has asked for, the seconds
    it has slept and what it has printed. *)
Record Tracking := mkTracking {
  requests : nat;
  transitions : list (string * nat * string);
  slept : nat;
  printed : list string
}.

Section Client.

(** The tracking server: the status it reports at the k-th request for the
    model version ([None] when the request raises), and whether it accepts
    a stage transition. *)
Variable status_at : nat → option ModelVersionStatus.
Variable transition_accepted : string → nat → string → bool.

Definition get_model_version (name : string) (version : nat)
  : Exc Tracking ModelVersionStatus :=
  fun w =>
    let w' := mkTracking (S (requests w)) (transitions w) (slept w) (printed w) in
    match status_at (requests w) with
    | Some status => (inr status, w')
    | None => (inl MlflowException, w')
    end.

Definition transition_model_version_stage (name : string) (version : nat)
    (stage : string) : Exc Tracking unit :=
  fun w =>
    let w' := mkTracking (requests w) (transitions w ++ [(name, version, stage)])
                (slept w) (printed w) in
    if transition_accepted name version stage then (inr tt, w')
    else (inl MlflowException, w').

Definition sleep (seconds : nat) : Exc Tracking unit :=
  fun w =>
    (inr tt, mkTracking (requests w) (transitions w) (slept w + seconds) (printed w)).

Definition print_status (line : string) : Exc Tracking unit :=
  fun w =>
    (inr tt, mkTracking (requests w) (transitions w) (slept w) (printed w ++ [line])).

Definition wait_model_transition (model_name : string) (model_version : nat)
    (stage : string) : Exc Tracking unit :=
  for_each_break (seq 0 10) (fun _ =>
    status ← get_model_version model_name model_version;
    print_status ("Model status: " +:+ to_string status);;
    if bool_decide (status = READY) then
      transition_model_version_stage model_name model_version stage;;
      mret Break
    else
      sleep 1;;
      mret Continue).

(** One turn of that loop. *)
Definition poll_turn (model_name : string) (model_version : nat)
    (stage : string) : Exc Tracking Flow :=
  status ← get_model_version model_name model_version;
  print_status ("Model status: " +:+ to_string status);;
  if bool_decide (status = READY) then
    transition_model_version_stage model_name model_version stage;;
    mret Break
  else
    sleep 1;;
    mret Continue.

End Client.
End decoder_mlflow_registry.

Module detector_mlflow_local.
Section Model.

(** The matches of the detector and the objects their attributes hold are
    not spaCy's: they come with what [predict] reads from them. *)
Variable Term : Type.
Variable Obj : Type.
Variable str_term : Term → string.
Variable str_obj : Obj → string.
Variable lemma : Term → string.
Variable start : Term → nat.
Variable end_ : Term → nat.
Variable alternative_verbs : Term → string.
Variable example : Term → string.

(** [getattr(ableist_term, p)] and [getattr(ableist_term.data, p)]; [None]
    when the attribute does not exist. *)
Variable getattr : Term → string → option Obj.
Variable getattr_data : Term → string → option Obj.

Variable func : string → list Term.

(** [for i, ableist_term in enumerate(result): print(...)] *)
Definition report (result : list Term) : Exc (Env string) unit :=
  for_each_exc (imap (fun n ableist_term => (n, ableist_term)) result)
    (fun '(n, ableist_term) =>
       print_line ("Match #" +:+ str_nat (n + 1) +:+ nl
                   +:+ "PHRASE: " +:+ str_term ableist_term
                   +:+ " | LEMMA: " +:+ lemma ableist_term
                   +:+ " | POSITION: " +:+ str_nat (start ableist_term)
                   +:+ ":" +:+ str_nat (end_ ableist_term)
                   +:+ " | ALTERNATIVES: " +:+ alternative_verbs ableist_term
                   +:+ " | EXAMPLE: " +:+ example ableist_term +:+ nl)).

Definition collect (result : list Term) (properties : list string)
  : Exc (Env string) unit :=
  print_line ("Found " +:+ str_nat (length result)
              +:+ " instances of ableist language." +:+ nl);;
  if bool_decide (0 < length result) then
    report result;;
    for_each_exc result (fun ableist_term =>
      new_entry (str_nat (start ableist_term));;
      if bool_decide (0 < length properties) then
        for_each_exc properties (fun p =>
          match getattr ableist_term p with
          | Some v => set_item (str_nat (start ableist_term)) p (str_obj v)
          | None =>
              v ← attribute (getattr_data ableist_term p);
              set_item (str_nat (start ableist_term)) p (str_obj v)
          end)
      else mret tt)
  else mret tt.

(** [predict] from the call of [self.func] on, that is, from the text
    already loaded and the list of properties already taken from the model
    input, with the standard output so far. *)
Definition predict (input_text : string) (properties : list string)
    (stdout : list string)
  : (Exn + gmap string (gmap string string)) * list string :=
  let result := func input_text in
  let '(outcome, env) := collect result properties (mkEnv ∅ stdout) in
  (match outcome with
   | inl e => inl e
   | inr _ => inr (terms env)
   end,
   console env).

End Model.
End detector_mlflow_local.

(** An entry after the requested attributes have been written into it,
    each through [wrap]. *)
Definition with_attrs {Attr V} (wrap : Attr → V) (getattr : string → option Attr)
    (properties : list string) (entry : gmap string V) : gmap string V :=
  foldl (fun e at_ =>
           match getattr at_ with
           | Some a => <[at_ := wrap a]> e
           | None => e
           end) entry properties.

(** The first of two lookups that succeeds. *)
Definition first_of {A} (o1 o2 : option A) : option A :=
  match o1 with
  | Some v => Some v
  | None => o2
  end.

(** Sample matches of the detector: a match is the position where it
    begins; "start" is an attribute of the match, "example" one of its
    data. *)
Definition sample_term_getattr (term : nat) (name : string) : option string :=
  if bool_decide (name = "start") then Some (str_nat term) else None.

Definition sample_data_getattr (term : nat) (name : string) : option string :=
  if bool_decide (name = "example") then Some "use" else None.

(** The attributes a sample [getattr] knows. *)
Definition sample_getattr (ableist_term : Match) (name : string) : option string :=
  match ableist_term with
  | MToken token =>
      if bool_decide (name = "lemma_") then Some (lemma_ token)
      else if bool_decide (name = "pos_") then Some (pos_ token)
      else None
  | MSpan span =>
      if bool_decide (name = "text") then Some (span_text span)
      else None
  end.

(** [str(ableist_term)] *)
Definition match_text (ableist_term : Match) : string :=
  match ableist_term with
  | MSpan span => span_text span
  | MToken token => text token
  end.

(** Whether a string holds a colon. *)
Fixpoint has_colon (s : string) : bool :=
  match s with
  | EmptyString => false
  | String c s' => bool_decide (c = ":"%char) || has_colon s'
  end.

(** The last element of a list that passes a test. *)
Definition last_with {A} (c : A → bool) (l : list A) : option A :=
  last (List.filter c l).

(** ** Sample parses *)

(** "must be able to move your hands repeatedly" *)
Definition test_doc : Doc :=
  [ mkTokenC "must" true "must" "AUX" "aux" 1;
    mkTokenC "be" true "be" "AUX" "ROOT" 1;
    mkTokenC "able" true "able" "ADJ" "acomp" 1;
    mkTokenC "to" true "to" "PART" "aux" 4;
    mkTokenC "move" true "move" "VERB" "xcomp" 2;
    mkTokenC "your" true "your" "PRON" "poss" 6;
    mkTokenC "hands" true "hand" "NOUN" "dobj" 4;
    mkTokenC "repeatedly" false "repeatedly" "ADV" "advmod" 4 ].

(** "Which hands do you move": the direct object stands before its verb. *)
Definition fronted_doc : Doc :=
  [ mkTokenC "Which" true "which" "DET" "det" 1;
    mkTokenC "hands" true "hand" "NOUN" "dobj" 4;
    mkTokenC "do" true "do" "AUX" "aux" 4;
    mkTokenC "you" true "you" "PRON" "nsubj" 4;
    mkTokenC "move" false "move" "VERB" "ROOT" 4 ].

(** "move them": the direct object is a pronoun. *)
Definition pronoun_doc : Doc :=
  [ mkTokenC "move" true "move" "VERB" "ROOT" 0;
    mkTokenC "them" false "they" "PRON" "dobj" 0 ].

(** "move your hands and lift your feet": two clauses, each with a listed
    verb and object. *)
Definition two_clause_doc : Doc :=
  [ mkTokenC "move" true "move" "VERB" "ROOT" 0;
    mkTokenC "your" true "your" "PRON" "poss" 2;
    mkTokenC "hands" true "hand" "NOUN" "dobj" 0;
    mkTokenC "and" true "and" "CCONJ" "cc" 0;
    mkTokenC "lift" true "lift" "VERB" "conj" 0;
    mkTokenC "your" true "your" "PRON" "poss" 6;
    mkTokenC "feet" false "foot" "NOUN" "dobj" 4 ].

(** "move hands that lift feet": the second clause is a relative clause
    inside the object of the first. *)
Definition nested_doc : Doc :=
  [ mkTokenC "move" true "move" "VERB" "ROOT" 0;
    mkTokenC "hands" true "hand" "NOUN" "dobj" 0;
    mkTokenC "that" true "that" "PRON" "nsubj" 3;
    mkTokenC "lift" true "lift" "VERB" "relcl" 1;
    mkTokenC "feet" false "foot" "NOUN" "dobj" 3 ].

(** A parse that hangs two direct objects from one verb. *)
Definition shared_verb_doc : Doc :=
  [ mkTokenC "move" true "move" "VERB" "ROOT" 0;
    mkTokenC "hands" true "hand" "NOUN" "dobj" 0;
    mkTokenC "feet" false "foot" "NOUN" "dobj" 0 ].

(** "the hands" *)
Definition verbless_doc : Doc :=
  [ mkTokenC "the" true "the" "DET" "det" 1;
    mkTokenC "hands" false "hand" "NOUN" "ROOT" 1 ].

(** Word lists for the examples: "lift" is flagged alone, "move" only with
    one of the listed objects. *)
Definition sample_world : World :=
  mkWorld {["lift"]} {["hand"; "foot"]} {["move"]} [].

(** Closed membership and equality goals are settled by evaluation. *)
Ltac by_evaluation :=
  lazymatch goal with
  | |- ?x ∈ ?X => apply (bool_decide_eq_true_1 (x ∈ X)); vm_compute; reflexivity
  | |- ?x ∉ ?X => apply (bool_decide_eq_false_1 (x ∈ X)); vm_compute; reflexivity
  | |- ?x ≠ ?y => apply (bool_decide_eq_false_1 (x = y)); vm_compute; reflexivity
  | |- _ => vm_compute; reflexivity
  end.

(** * Properties *)

(** ** The token sequence *)

Lemma tokens_lookup (doc : Doc) (k : nat) : tokens doc !! k = token_at doc k.
Proof. unfold tokens, token_at. apply list_lookup_imap. Qed.

Lemma length_tokens (doc : Doc) : length (tokens doc) = length doc.
Proof. apply length_imap. Qed.

Lemma tokens_positions (doc : Doc) : i <$> tokens doc = seq 0 (length doc).
Proof.
  unfold tokens. rewrite fmap_imap.
  rewrite (imap_ext _ (fun n _ => n)) by done.
  by rewrite (imap_seq_0 doc (fun n => n)), list_fmap_id.
Qed.

Lemma elem_of_tokens (doc : Doc) (token : Token) :
  token ∈ tokens doc ↔ doc !! i token = Some (data token).
Proof.
  rewrite list_elem_of_lookup. split.
  - intros [k Hk]. rewrite tokens_lookup in Hk. unfold token_at in Hk.
    destruct (doc !! k) as [c|] eqn:E; simplify_eq/=. done.
  - intros H. exists (i token). rewrite tokens_lookup. unfold token_at.
    rewrite H. by destruct token.
Qed.

Lemma token_in_range (doc : Doc) (token : Token) :
  token ∈ tokens doc → i token < length doc.
Proof. rewrite elem_of_tokens. apply lookup_lt_Some. Qed.

Lemma token_at_i (doc : Doc) (k : nat) (token : Token) :
  token_at doc k = Some token → i token = k.
Proof.
  unfold token_at. destruct (doc !! k); intros; simplify_eq/=. done.
Qed.

Lemma token_at_elem (doc : Doc) (k : nat) (token : Token) :
  token_at doc k = Some token → token ∈ tokens doc.
Proof. rewrite <- tokens_lookup. apply list_elem_of_lookup_2. Qed.

(** The head of a token of the document is a token of the document. *)
Lemma head_elem (doc : Doc) (token : Token) :
  token ∈ tokens doc → head doc token ∈ tokens doc.
Proof.
  intros H. unfold head.
  destruct (token_at doc (head_i token)) as [h|] eqn:E; simpl; [|done].
  by eapply token_at_elem.
Qed.

(** ** The right edge of a subtree *)

Lemma foldr_max_ge (k : nat) (l : list nat) : k ≤ foldr Nat.max k l.
Proof. induction l as [|x l IH]; simpl; lia. Qed.

Lemma foldr_max_elem (k : nat) (l : list nat) (x : nat) :
  x ∈ l → x ≤ foldr Nat.max k l.
Proof.
  induction l as [|y l IH]; simpl.
  - by intros ?%elem_of_nil.
  - intros [->|Hx]%elem_of_cons; [lia|]. specialize (IH Hx). lia.
Qed.

Lemma foldr_max_cases (k : nat) (l : list nat) :
  foldr Nat.max k l = k ∨ foldr Nat.max k l ∈ l.
Proof.
  induction l as [|y l IH]; simpl; [by left|].
  destruct (Nat.max_spec y (foldr Nat.max k l)) as [[_ ->]|[_ ->]].
  - destruct IH as [->|IH]; [by left|]. right. by apply elem_of_cons; right.
  - right. apply elem_of_cons. by left.
Qed.

Lemma elem_of_subtree (doc : Doc) (a k : nat) :
  k ∈ subtree doc a ↔ k < length doc ∧ reaches doc (length doc) a k = true.
Proof.
  unfold subtree. rewrite list_elem_of_In, filter_In, <- list_elem_of_In.
  rewrite elem_of_seq. split; intros [? ?]; split; auto; lia.
Qed.

Lemma reaches_refl (doc : Doc) (fuel a : nat) : reaches doc fuel a a = true.
Proof. destruct fuel; simpl; by rewrite Nat.eqb_refl. Qed.

(** The right edge is never to the left of the token. *)
Lemma right_edge_i_ge (doc : Doc) (token : Token) :
  i token ≤ right_edge_i doc token.
Proof. apply foldr_max_ge. Qed.

(** The right edge of a token of the document is inside the document. *)
Lemma right_edge_i_lt (doc : Doc) (token : Token) :
  i token < length doc → right_edge_i doc token < length doc.
Proof.
  intros H. unfold right_edge_i.
  destruct (foldr_max_cases (i token) (subtree doc (i token))) as [->|Hin]; [done|].
  by apply elem_of_subtree in Hin as [? _].
Qed.

(** The right edge belongs to the subtree of the token. *)
Lemma right_edge_i_reaches (doc : Doc) (token : Token) :
  reaches doc (length doc) (i token) (right_edge_i doc token) = true.
Proof.
  unfold right_edge_i.
  destruct (foldr_max_cases (i token) (subtree doc (i token))) as [->|Hin].
  - apply reaches_refl.
  - by apply elem_of_subtree in Hin as [_ ?].
Qed.

(** No position of the subtree lies to the right of the right edge. *)
Lemma right_edge_i_max (doc : Doc) (token : Token) (k : nat) :
  k < length doc → reaches doc (length doc) (i token) k = true →
  k ≤ right_edge_i doc token.
Proof.
  intros Hk Hr. apply foldr_max_elem. by apply elem_of_subtree.
Qed.

Lemma right_edge_i_spec (doc : Doc) (token : Token) :
  token ∈ tokens doc → i (right_edge doc token) = right_edge_i doc token.
Proof.
  intros H%token_in_range%(right_edge_i_lt doc). unfold right_edge.
  destruct (token_at doc (right_edge_i doc token)) as [r|] eqn:E; simpl.
  - by eapply token_at_i.
  - apply lookup_lt_is_Some_2 in H as [c Hc].
    unfold token_at in E. by rewrite Hc in E.
Qed.

Lemma right_edge_elem (doc : Doc) (token : Token) :
  token ∈ tokens doc → right_edge doc token ∈ tokens doc.
Proof.
  intros H. unfold right_edge.
  destruct (token_at doc (right_edge_i doc token)) as [r|] eqn:E; simpl; [|done].
  by eapply token_at_elem.
Qed.

Lemma right_edge_ge (doc : Doc) (token : Token) :
  token ∈ tokens doc → i token ≤ i (right_edge doc token).
Proof. intros H. rewrite right_edge_i_spec by done. apply right_edge_i_ge. Qed.

Lemma right_edge_lt (doc : Doc) (token : Token) :
  token ∈ tokens doc → i (right_edge doc token) < length doc.
Proof. intros H. by apply token_in_range, right_edge_elem. Qed.

(** *** The fuel of [reaches] is enough

    A chain of head links that arrives at [a] arrives there within
    [length doc] links: a shortest chain never visits a position twice. *)

Lemma reaches_nth_ancestor (doc : Doc) (n a k : nat) :
  reaches doc n a k = true ↔ ∃ m, m ≤ n ∧ nth_ancestor doc m k = Some a.
Proof.
  revert k. induction n as [|n IH]; intros k; simpl.
  - rewrite orb_false_r, Nat.eqb_eq. split.
    + intros ->. exists 0. by split.
    + intros (m & Hm & Hk). assert (m = 0) as -> by lia. by simplify_eq/=.
  - rewrite orb_true_iff, Nat.eqb_eq. split.
    + intros [->|Hr]; [exists 0; split; [lia|done]|].
      destruct (doc !! k) as [c|] eqn:E; [|done].
      apply IH in Hr as (m & Hm & Hk). exists (S m). split; [lia|].
      simpl. by rewrite E.
    + intros ([|m] & Hm & Hk); simpl in Hk; [left; by simplify_eq|].
      right. destruct (doc !! k) as [c|]; [|done].
      apply IH. exists m. split; [lia|done].
Qed.

Lemma nth_ancestor_add (doc : Doc) (x y k : nat) :
  nth_ancestor doc (x + y) k = nth_ancestor doc x k ≫= nth_ancestor doc y.
Proof.
  revert k. induction x as [|x IH]; intros k; simpl; [done|].
  destruct (doc !! k); [apply IH|done].
Qed.

(** Before the end of a chain every position is inside the document. *)
Lemma nth_ancestor_before (doc : Doc) (m p k a : nat) :
  nth_ancestor doc m k = Some a → p < m →
  ∃ x, nth_ancestor doc p k = Some x ∧ x < length doc
       ∧ nth_ancestor doc (m - p) x = Some a.
Proof.
  intros Hm Hp. replace m with (p + (m - p)) in Hm by lia.
  rewrite nth_ancestor_add in Hm.
  destruct (nth_ancestor doc p k) as [x|]; [|done]. simpl in Hm.
  exists x. split; [done|]. split; [|done].
  destruct (m - p) as [|d] eqn:E; [lia|]. simpl in Hm.
  destruct (doc !! x) as [c|] eqn:Ex; [|done]. by eapply lookup_lt_Some.
Qed.

Lemma least_chain_or_none (doc : Doc) (m k a : nat) :
  (∃ m0, m0 ≤ m ∧ nth_ancestor doc m0 k = Some a
         ∧ ∀ m', m' < m0 → nth_ancestor doc m' k ≠ Some a)
  ∨ (∀ m', m' ≤ m → nth_ancestor doc m' k ≠ Some a).
Proof.
  induction m as [|m [(m0 & ? & ? & ?)|Hnone]].
  - destruct (decide (nth_ancestor doc 0 k = Some a)) as [Hyes|Hno].
    + left. exists 0. split; [done|]. split; [done|]. intros m' ?. lia.
    + right. intros m' Hle. by assert (m' = 0) as -> by lia.
  - left. exists m0. split; [lia|done].
  - destruct (decide (nth_ancestor doc (S m) k = Some a)) as [Hyes|Hno].
    + left. exists (S m). split; [done|]. split; [done|].
      intros m' Hlt. apply Hnone. lia.
    + right. intros m' Hle.
      destruct (decide (m' = S m)) as [->|]; [done|]. apply Hnone. lia.
Qed.

Lemma least_chain (doc : Doc) (m k a : nat) :
  nth_ancestor doc m k = Some a →
  ∃ m0, m0 ≤ m ∧ nth_ancestor doc m0 k = Some a
        ∧ ∀ m', m' < m0 → nth_ancestor doc m' k ≠ Some a.
Proof.
  intros Hm. destruct (least_chain_or_none doc m k a) as [H|Hnone]; [done|].
  by destruct (Hnone m).
Qed.

Lemma shortest_chain_length (doc : Doc) (m k a : nat) :
  nth_ancestor doc m k = Some a →
  (∀ m', m' < m → nth_ancestor doc m' k ≠ Some a) →
  m ≤ length doc.
Proof.
  intros Hm Hleast.
  set (visited := (fun p => default 0 (nth_ancestor doc p k)) <$> seq 0 m).
  assert (Hlook : ∀ p x, visited !! p = Some x →
            p < m ∧ nth_ancestor doc p k = Some x ∧ x < length doc
            ∧ nth_ancestor doc (m - p) x = Some a).
  { intros p x Hp. unfold visited in Hp. rewrite list_lookup_fmap in Hp.
    destruct (seq 0 m !! p) as [p'|] eqn:E; [|done].
    apply lookup_seq in E as [-> Hlt]. simpl in Hp.
    destruct (nth_ancestor_before doc m p k a Hm Hlt) as (y & Hy & ? & ?).
    rewrite Hy in Hp. simpl in Hp. by simplify_eq. }
  assert (Hnodup : NoDup visited).
  { apply NoDup_alt. intros p q x Hp Hq.
    apply Hlook in Hp as (Hpm & Hp & _ & Hpa).
    apply Hlook in Hq as (Hqm & Hq & _ & Hqa).
    destruct (decide (p = q)) as [|Hne]; [done|]. exfalso.
    destruct (decide (p < q)).
    - apply (Hleast (p + (m - q))); [lia|].
      by rewrite nth_ancestor_add, Hp.
    - apply (Hleast (q + (m - p))); [lia|].
      by rewrite nth_ancestor_add, Hq. }
  assert (Hsub : visited ⊆+ seq 0 (length doc)).
  { apply NoDup_submseteq; [done|]. intros x Hx.
    apply list_elem_of_lookup in Hx as [p Hp].
    apply Hlook in Hp as (_ & _ & ? & _). apply elem_of_seq. lia. }
  apply submseteq_length in Hsub.
  unfold visited in Hsub. by rewrite length_fmap, !length_seq in Hsub.
Qed.

(** More fuel than the length of the document finds no new ancestor. *)
Lemma reaches_fuel (doc : Doc) (n a k : nat) :
  reaches doc n a k = true → reaches doc (length doc) a k = true.
Proof.
  intros (m & _ & Hm)%reaches_nth_ancestor.
  destruct (least_chain doc m k a Hm) as (m0 & _ & Hm0 & Hleast).
  apply reaches_nth_ancestor. exists m0. split; [|done].
  by eapply shortest_chain_length.
Qed.

(** What hangs from a token hangs from its head. *)
Lemma reaches_head (doc : Doc) (token : Token) (k : nat) :
  token ∈ tokens doc →
  reaches doc (length doc) (i token) k = true →
  reaches doc (length doc) (i (head doc token)) k = true.
Proof.
  intros Hin Hr. unfold head.
  destruct (token_at doc (head_i token)) as [h|] eqn:E; simpl; [|done].
  apply token_at_i in E. rewrite E.
  apply reaches_nth_ancestor in Hr as (m & _ & Hm).
  apply (reaches_fuel doc (S m)). apply reaches_nth_ancestor.
  exists (m + 1). split; [lia|].
  rewrite nth_ancestor_add, Hm. simpl.
  apply elem_of_tokens in Hin. by rewrite Hin.
Qed.

(** The subtree of a token does not reach further right than the subtree of
    its head. *)
Lemma right_edge_i_head (doc : Doc) (token : Token) :
  token ∈ tokens doc →
  right_edge_i doc token ≤ right_edge_i doc (head doc token).
Proof.
  intros Hin. apply right_edge_i_max.
  - by apply right_edge_i_lt, token_in_range.
  - apply reaches_head; [done|]. apply right_edge_i_reaches.
Qed.

(** ** Slices *)

Lemma doc_slice_start (doc : Doc) (a b : nat) :
  start (doc_slice doc a b) = Nat.min (length doc) a.
Proof. reflexivity. Qed.

Lemma doc_slice_end (doc : Doc) (a b : nat) :
  end_ (doc_slice doc a b) = Nat.min (length doc) (Nat.max (Nat.min (length doc) a) b).
Proof. reflexivity. Qed.

Lemma doc_slice_doc (doc : Doc) (a b : nat) : span_doc (doc_slice doc a b) = doc.
Proof. reflexivity. Qed.

(** Whatever the bounds asked for, a slice is a range of the document. *)
Lemma doc_slice_bounds (doc : Doc) (a b : nat) :
  start (doc_slice doc a b) ≤ end_ (doc_slice doc a b)
  ∧ end_ (doc_slice doc a b) ≤ length doc.
Proof. rewrite doc_slice_start, doc_slice_end. lia. Qed.

Lemma length_span_tokens (s : Span) :
  end_ s ≤ length (span_doc s) →
  length (span_tokens s) = end_ s - start s.
Proof.
  intros H. unfold span_tokens. rewrite length_take, length_drop. lia.
Qed.

(** ** Loops that collect *)

(** A loop whose body appends [f x] exactly when [c x] holds returns the
    accumulator followed by the images of the elements that pass [c], in
    the order of the list. *)
Lemma for_each_collect {A B} (l : list A) (c : A → bool) (f : A → B)
    (body : A → State (list B) unit) :
  (∀ x acc, body x acc = (tt, if c x then acc ++ [f x] else acc)) →
  ∀ acc, for_each l body acc = (tt, acc ++ (f <$> List.filter c l)).
Proof.
  intros Hbody. induction l as [|x l IH]; intros acc; simpl.
  - by rewrite app_nil_r.
  - unfold mbind, state_bind. rewrite Hbody, IH.
    destruct (c x); simpl; [|done]. by rewrite <- app_assoc.
Qed.

Lemma get_verb_phrases_eq (doc : Doc) :
  get_verb_phrases doc =
  (fun token => (head doc token, children doc token, token))
    <$> List.filter (fun token : Token => bool_decide (dep_ token = "dobj")) (tokens doc).
Proof.
  unfold get_verb_phrases, returning_list.
  rewrite (for_each_collect _ (fun token : Token => bool_decide (dep_ token = "dobj"))
             (fun token => (head doc token, children doc token, token))); [done|].
  intros token acc. by destruct (bool_decide _).
Qed.

(** ** The token predicates *)

Lemma is_verb_spec (token : Token) :
  is_verb token = true ↔
  pos_ token = "VERB"
  ∧ dep_ token ≠ "aux" ∧ dep_ token ≠ "auxpass" ∧ dep_ token ≠ "neg".
Proof.
  unfold is_verb.
  rewrite andb_true_iff, negb_true_iff, bool_decide_eq_true, bool_decide_eq_false.
  rewrite !elem_of_union, !elem_of_singleton. tauto.
Qed.

Lemma is_object_spec (token : Token) :
  is_object token = true ↔ pos_ token = "NOUN" ∧ dep_ token = "dobj".
Proof.
  unfold is_object. by rewrite andb_true_iff, !bool_decide_eq_true.
Qed.

Lemma get_verbs_tokens (doc : Doc) :
  get_verbs doc false = List.filter is_verb (tokens doc).
Proof. reflexivity. Qed.

Lemma get_verbs_lemmas (doc : Doc) :
  get_verbs doc true = (fun token : Token => lemma_ token) <$> get_verbs doc false.
Proof. reflexivity. Qed.

(** ** The dependent matcher, token by token *)

Lemma qualifies_spec (doc : Doc) (dverbs dobjs : gset string) (token : Token) :
  qualifies doc dverbs dobjs token = true ↔
  dep_ token = "dobj" ∧ join_condition doc dverbs dobjs token.
Proof.
  unfold qualifies, join_condition.
  rewrite !andb_true_iff, !bool_decide_eq_true, is_verb_spec. tauto.
Qed.

Lemma match_dependent_step_eq (doc : Doc) (dverbs dobjs : gset string)
    (token : Token) (acc : list Span) :
  match_dependent_step doc dverbs dobjs token acc =
  (tt, if qualifies doc dverbs dobjs token
       then acc ++ [matched_phrase doc token] else acc).
Proof.
  unfold match_dependent_step, qualifies, matched_phrase.
  destruct (bool_decide (dep_ token = "dobj") && _); simpl; [|done].
  by destruct (is_verb (head doc token) && _).
Qed.

Lemma emitted_eq (doc : Doc) (dverbs dobjs : gset string) (token : Token) :
  emitted doc dverbs dobjs token =
  if qualifies doc dverbs dobjs token then [matched_phrase doc token] else [].
Proof.
  unfold emitted, returning_list. rewrite match_dependent_step_eq.
  by destruct (qualifies _ _ _ _).
Qed.

(** The loop started from any accumulator leaves it in front of what it
    adds. *)
Lemma match_dependent_loop (doc : Doc) (dverbs dobjs : gset string) (acc : list Span) :
  for_each (tokens doc) (match_dependent_step doc dverbs dobjs) acc =
  (tt, acc ++ (matched_phrase doc <$>
                 List.filter (qualifies doc dverbs dobjs) (tokens doc))).
Proof. apply for_each_collect. apply match_dependent_step_eq. Qed.

Lemma match_dependent_eq (doc : Doc) (dverbs dobjs : gset string) :
  match_dependent_ableist_verbs doc dverbs dobjs =
  matched_phrase doc <$> List.filter (qualifies doc dverbs dobjs) (tokens doc).
Proof.
  unfold match_dependent_ableist_verbs, returning_list.
  by rewrite match_dependent_loop.
Qed.

Lemma fmap_filter_concat {A B} (c : A → bool) (f : A → B) (l : list A) :
  f <$> List.filter c l = concat ((fun x => if c x then [f x] else []) <$> l).
Proof.
  induction l as [|x l IH]; [done|].
  cbn [List.filter]. rewrite fmap_cons. cbn [concat]. rewrite <- IH.
  by destruct (c x).
Qed.

Lemma match_dependent_concat (doc : Doc) (dverbs dobjs : gset string) :
  match_dependent_ableist_verbs doc dverbs dobjs =
  concat (emitted doc dverbs dobjs <$> tokens doc).
Proof.
  rewrite match_dependent_eq, fmap_filter_concat. f_equal.
  apply list_fmap_ext. intros _ token _. by rewrite emitted_eq.
Qed.

Lemma elem_of_match_dependent (doc : Doc) (dverbs dobjs : gset string) (s : Span) :
  s ∈ match_dependent_ableist_verbs doc dverbs dobjs ↔
  ∃ token, token ∈ tokens doc
           ∧ qualifies doc dverbs dobjs token = true
           ∧ s = matched_phrase doc token.
Proof.
  rewrite match_dependent_eq, list_elem_of_fmap. split.
  - intros (token & -> & Hin). exists token.
    rewrite list_elem_of_In, filter_In, <- list_elem_of_In in Hin. tauto.
  - intros (token & ? & ? & ->). exists token. split; [done|].
    rewrite list_elem_of_In, filter_In, <- list_elem_of_In. tauto.
Qed.

(** The tokens that pass a test are listed in ascending position. *)
Lemma filter_tokens_sorted (doc : Doc) (c : Token → bool) :
  StronglySorted lt (i <$> List.filter c (tokens doc)).
Proof.
  assert (Hs : StronglySorted lt (i <$> tokens doc)).
  { rewrite tokens_positions. generalize 0.
    induction (length doc) as [|n IH]; intros k; simpl; constructor.
    - apply IH.
    - apply Forall_forall. intros x Hx%elem_of_seq. lia. }
  induction (tokens doc) as [|t l IH]; simpl; [constructor|].
  simpl in Hs. apply StronglySorted_inv in Hs as [Hl Ht].
  destruct (c t); simpl; [|by apply IH].
  constructor; [by apply IH|].
  rewrite Forall_forall in Ht |- *. intros x Hx. apply Ht.
  apply list_elem_of_fmap in Hx as (y & -> & Hy).
  apply list_elem_of_fmap. exists y. split; [done|].
  rewrite list_elem_of_In, filter_In, <- list_elem_of_In in Hy. tauto.
Qed.

(** ** The bounds of a matched phrase *)

Lemma matched_phrase_start (doc : Doc) (token : Token) :
  token ∈ tokens doc →
  start (matched_phrase doc token) = i (head doc token).
Proof.
  intros H%head_elem%token_in_range. unfold matched_phrase.
  rewrite doc_slice_start. lia.
Qed.

Lemma matched_phrase_end (doc : Doc) (token : Token) :
  token ∈ tokens doc →
  i (head doc token) ≤ i (right_edge doc token) + 1 →
  end_ (matched_phrase doc token) = i (right_edge doc token) + 1.
Proof.
  intros H Hle. pose proof (right_edge_lt doc token H).
  unfold matched_phrase. rewrite doc_slice_end. lia.
Qed.

(** When the head stands after the right edge of the object the slice is
    empty and sits at the head. *)
Lemma matched_phrase_end_after (doc : Doc) (token : Token) :
  token ∈ tokens doc →
  i (right_edge doc token) + 1 ≤ i (head doc token) →
  end_ (matched_phrase doc token) = i (head doc token).
Proof.
  intros H Hle. pose proof (token_in_range _ _ (head_elem doc token H)).
  unfold matched_phrase. rewrite doc_slice_end. lia.
Qed.

Lemma matched_phrase_bounds (doc : Doc) (token : Token) :
  start (matched_phrase doc token) ≤ end_ (matched_phrase doc token)
  ∧ end_ (matched_phrase doc token) ≤ length doc.
Proof. apply doc_slice_bounds. Qed.

(** A head that does not stand after the object gives a phrase that holds
    the head and the object. *)
Lemma matched_phrase_nonempty (doc : Doc) (token : Token) :
  token ∈ tokens doc →
  i (head doc token) ≤ i token →
  start (matched_phrase doc token) ≤ i token
  ∧ i token < end_ (matched_phrase doc token).
Proof.
  intros H Hle. pose proof (right_edge_ge doc token H).
  rewrite matched_phrase_start, matched_phrase_end by (done || lia). lia.
Qed.

(** ** The entry point *)

Lemma find_ableist_terms_eq (nlp : string → Doc) (text : string) (w : World) :
  find_ableist_terms nlp text w =
  (matched_verbs (ABLEIST_VERBS w) (nlp text),
   mkWorld (ABLEIST_VERBS w) (ABLEIST_OBJECTS w) (ABLEIST_VERBS_OBJECT_DEPENDENT w)
           (stdout w ++ [get_verb_phrases (nlp text)])).
Proof. reflexivity. Qed.

Lemma elem_of_matched_verbs (verbs : gset string) (doc : Doc) (token : Token) :
  token ∈ matched_verbs verbs doc ↔
  token ∈ tokens doc ∧ is_verb token = true ∧ lemma_ token ∈ verbs.
Proof.
  unfold matched_verbs. rewrite get_verbs_tokens.
  rewrite !list_elem_of_In, !filter_In, bool_decide_eq_true. tauto.
Qed.


(** * The claims *)

(** C4.  The standalone matcher returns exactly the tokens of the sentence
    that are tagged VERB, whose own dependency label is none of aux, auxpass
    and neg, and whose lemma is in the list of ableist verbs; they come in
    ascending token position; a token labelled aux is never among them. *)
Theorem matched_verbs_exact (verbs : gset string) (doc : Doc) :
  (∀ token : Token,
     token ∈ matched_verbs verbs doc ↔
     token ∈ tokens doc
     ∧ pos_ token = "VERB"
     ∧ (dep_ token ≠ "aux" ∧ dep_ token ≠ "auxpass" ∧ dep_ token ≠ "neg")
     ∧ lemma_ token ∈ verbs)
  ∧ StronglySorted lt (i <$> matched_verbs verbs doc)
  ∧ (∀ token : Token, dep_ token = "aux" → token ∉ matched_verbs verbs doc).
Proof.
  split; [|split].
  - intros token. rewrite elem_of_matched_verbs, is_verb_spec. tauto.
  - unfold matched_verbs. rewrite get_verbs_tokens.
    assert (Hsub : ∀ (c1 c2 : Token → bool) (l : list Token),
               List.filter c2 (List.filter c1 l)
               = List.filter (fun t => c1 t && c2 t) l).
    { intros c1 c2 l. induction l as [|t l IH]; simpl; [done|].
      destruct (c1 t); simpl; [destruct (c2 t)|]; by rewrite ?IH. }
    rewrite Hsub. apply filter_tokens_sorted.
  - intros token Haux Hin. apply elem_of_matched_verbs in Hin as (_ & Hv & _).
    apply is_verb_spec in Hv. tauto.
Qed.

Lemma matched_verbs_exact_witness :
  mkToken 4 (mkTokenC "move" true "move" "VERB" "xcomp" 2)
    ∈ matched_verbs {["move"]} test_doc.
Proof.
  apply (proj1 (matched_verbs_exact {["move"]} test_doc)).
  repeat split; by_evaluation.
Defined.

(** C7.  A sentence with no tokens gives an empty result, not an error, in
    both matchers and in the entry point, and a sentence none of whose
    tokens is tagged VERB gives an empty result in the standalone matcher. *)
Theorem no_verbs_no_matches (verbs dverbs dobjs : gset string) (doc : Doc)
    (Hverbless : ∀ token : Token, token ∈ tokens doc → pos_ token ≠ "VERB") :
  matched_verbs verbs [] = []
  ∧ match_dependent_ableist_verbs [] dverbs dobjs = []
  ∧ (∀ (nlp : string → Doc) (text : string) (w : World),
       nlp text = [] → (find_ableist_terms nlp text w).1 = [])
  ∧ matched_verbs verbs doc = [].
Proof.
  split; [done|]. split; [done|]. split.
  { intros nlp text w Hempty. by rewrite find_ableist_terms_eq, Hempty. }
  destruct (matched_verbs verbs doc) as [|token l] eqn:E; [done|].
  assert (Hin : token ∈ matched_verbs verbs doc) by (rewrite E; left).
  apply elem_of_matched_verbs in Hin as (Hin & Hv & _).
  apply is_verb_spec in Hv as [Hpos _]. by destruct (Hverbless token Hin).
Qed.

Lemma no_verbs_no_matches_witness :
  matched_verbs {["move"]} [] = []
  ∧ match_dependent_ableist_verbs [] {["move"]} {["hand"]} = []
  ∧ (∀ (nlp : string → Doc) (text : string) (w : World),
       nlp text = [] → (find_ableist_terms nlp text w).1 = [])
  ∧ matched_verbs {["move"]} verbless_doc = [].
Proof.
  apply (no_verbs_no_matches {["move"]} {["move"]} {["hand"]} verbless_doc).
  intros token Hin. apply elem_of_tokens in Hin.
  destruct token as [[|[|k]] c]; simpl in Hin; simplify_eq/=; done.
Defined.

(** C9.  On the parse of "must be able to move your hands repeatedly", with
    the dependent verbs {move} and the dependent objects {hand} (or
    {hand, foot}, as in the test), the dependent matcher returns one phrase;
    it covers the three tokens "move your hands" and leaves out
    "repeatedly", which hangs from "move" and lies beyond the right edge of
    "hands". *)
Theorem test_sentence_phrase :
  ∃ phrase : Span,
    match_dependent_ableist_verbs test_doc {["move"]} {["hand"]} = [phrase]
    ∧ match_dependent_ableist_verbs test_doc {["move"]} {["hand"; "foot"]} = [phrase]
    ∧ span_text phrase = "move your hands"
    ∧ map text (span_tokens phrase) = ["move"; "your"; "hands"]
    ∧ (start phrase, end_ phrase) = (4, 7)
    ∧ option_map (fun token : Token => (text token, head_i token))
        (token_at test_doc 7) = Some ("repeatedly", 4)
    ∧ option_map (fun token : Token => (text token, right_edge_i test_doc token))
        (token_at test_doc 4) = Some ("move", 7)
    ∧ option_map (fun token : Token => (text token, right_edge_i test_doc token))
        (token_at test_doc 6) = Some ("hands", 6).
Proof.
  exists (mkSpan test_doc 4 7). repeat split; by_evaluation.
Qed.

(** C3.  While the loop of the dependent matcher visits a token labelled
    dobj it appends the phrase of that token exactly when the three join
    conditions hold, and nothing otherwise; the result of the matcher is
    what the visits append, in order.  In particular an object whose lemma
    is listed but whose head has an unlisted lemma adds nothing. *)
Theorem dependent_match_iff (doc : Doc) (dverbs dobjs : gset string) (obj : Token)
    (Hdobj : dep_ obj = "dobj") :
  (emitted doc dverbs dobjs obj = [matched_phrase doc obj]
   ↔ join_condition doc dverbs dobjs obj)
  ∧ (emitted doc dverbs dobjs obj = [] ↔ ¬ join_condition doc dverbs dobjs obj)
  ∧ (lemma_ obj ∈ dobjs → lemma_ (head doc obj) ∉ dverbs →
     emitted doc dverbs dobjs obj = [])
  ∧ match_dependent_ableist_verbs doc dverbs dobjs
    = concat (emitted doc dverbs dobjs <$> tokens doc).
Proof.
  pose proof (qualifies_spec doc dverbs dobjs obj) as Hq.
  rewrite emitted_eq.
  destruct (qualifies doc dverbs dobjs obj) eqn:E.
  - assert (Hj : join_condition doc dverbs dobjs obj) by (by apply Hq).
    split; [tauto|]. split; [split; [discriminate|tauto]|].
    split; [|apply match_dependent_concat].
    intros _ Hnot. destruct Hj as (_ & _ & Hv). by destruct Hnot.
  - assert (Hj : ¬ join_condition doc dverbs dobjs obj).
    { intros Hj. assert (false = true) by (by apply Hq). done. }
    split; [split; [discriminate|tauto]|]. split; [tauto|].
    split; [done|apply match_dependent_concat].
Qed.

Lemma dependent_match_iff_witness :
  let obj := mkToken 6 (mkTokenC "hands" true "hand" "NOUN" "dobj" 4) in
  emitted test_doc {["move"]} {["hand"]} obj = [matched_phrase test_doc obj]
  ∧ emitted test_doc {["lift"]} {["hand"]} obj = [].
Proof.
  intros obj. split.
  - apply (proj1 (dependent_match_iff test_doc {["move"]} {["hand"]} obj eq_refl)).
    repeat split; by_evaluation.
  - apply (proj1 (proj2 (proj2 (dependent_match_iff test_doc {["lift"]} {["hand"]} obj eq_refl))));
      by_evaluation.
Defined.

(** C2.  For a token [obj] of the sentence labelled dobj, with a listed
    lemma, whose head is a verb with a listed lemma, and whose head does not
    stand after the position that follows [obj]'s right edge, the dependent
    matcher emits a span that starts at the head and ends, exclusively, one
    past the right edge of [obj]. *)
Theorem span_from_verb_to_object_edge (doc : Doc) (dverbs dobjs : gset string)
    (obj : Token)
    (Hin : obj ∈ tokens doc)
    (Hdobj : dep_ obj = "dobj")
    (Hobj : lemma_ obj ∈ dobjs)
    (Hverb : is_verb (head doc obj) = true)
    (Hlemma : lemma_ (head doc obj) ∈ dverbs)
    (Horder : i (head doc obj) ≤ i (right_edge doc obj) + 1) :
  ∃ span : Span,
    span ∈ match_dependent_ableist_verbs doc dverbs dobjs
    ∧ start span = i (head doc obj)
    ∧ end_ span = i (right_edge doc obj) + 1.
Proof.
  exists (matched_phrase doc obj). split; [|split].
  - apply elem_of_match_dependent. exists obj. split; [done|]. split; [|done].
    apply qualifies_spec. split; [done|]. split; [done|]. split; [|done].
    by apply is_verb_spec.
  - by apply matched_phrase_start.
  - by apply matched_phrase_end.
Qed.

Lemma span_from_verb_to_object_edge_witness :
  let obj := mkToken 6 (mkTokenC "hands" true "hand" "NOUN" "dobj" 4) in
  ∃ span : Span,
    span ∈ match_dependent_ableist_verbs test_doc {["move"]} {["hand"]}
    ∧ start span = i (head test_doc obj)
    ∧ end_ span = i (right_edge test_doc obj) + 1.
Proof.
  intros obj.
  apply (span_from_verb_to_object_edge test_doc {["move"]} {["hand"]} obj);
    first [by_evaluation | vm_compute; lia].
Defined.

(** The statement of C2 without the condition on the order of head and
    object fails on "Which hands do you move": "hands" is a listed direct
    object of the listed verb "move", and no emitted span ends one past the
    right edge of "hands". *)
Lemma span_end_fails_for_fronted_object :
  let doc := fronted_doc in
  let obj := mkToken 1 (mkTokenC "hands" true "hand" "NOUN" "dobj" 4) in
  obj ∈ tokens doc
  ∧ dep_ obj = "dobj"
  ∧ lemma_ obj ∈ ({["hand"]} : gset string)
  ∧ is_verb (head doc obj) = true
  ∧ lemma_ (head doc obj) ∈ ({["move"]} : gset string)
  ∧ ¬ ∃ span : Span,
        span ∈ match_dependent_ableist_verbs doc {["move"]} {["hand"]}
        ∧ start span = i (head doc obj)
        ∧ end_ span = i (right_edge doc obj) + 1.
Proof.
  intros doc obj. repeat (split; [by_evaluation|]).
  intros (span & Hin & _ & Hend).
  assert (Hout : match_dependent_ableist_verbs doc {["move"]} {["hand"]}
                 = [mkSpan doc 4 4]) by by_evaluation.
  rewrite Hout in Hin. apply list_elem_of_singleton in Hin. subst span.
  vm_compute in Hend. discriminate.
Qed.

(** C5.  On "Which hands do you move", with the dependent verbs {move} and
    the dependent objects {hand}, the dependent matcher emits one span, and
    that span is empty: it starts and ends at the position of "move". *)
Theorem fronted_object_gives_empty_span :
  ∃ span : Span,
    match_dependent_ableist_verbs fronted_doc {["move"]} {["hand"]} = [span]
    ∧ (start span, end_ span) = (4, 4)
    ∧ span_tokens span = []
    ∧ span_text span = ""
    ∧ ¬ start span < end_ span.
Proof.
  exists (mkSpan fronted_doc 4 4).
  repeat (split; [by_evaluation|]). simpl. lia.
Qed.

(** C10.  The dependent matcher never looks at the part of speech of the
    object: every token of the sentence labelled dobj with a listed lemma,
    under a head that is a verb with a listed lemma, anchors a match,
    whatever its own tag. *)
Theorem object_tag_unconstrained (doc : Doc) (dverbs dobjs : gset string)
    (obj : Token)
    (Hin : obj ∈ tokens doc)
    (Hdobj : dep_ obj = "dobj")
    (Hobj : lemma_ obj ∈ dobjs)
    (Hverb : is_verb (head doc obj) = true)
    (Hlemma : lemma_ (head doc obj) ∈ dverbs) :
  emitted doc dverbs dobjs obj = [matched_phrase doc obj]
  ∧ matched_phrase doc obj ∈ match_dependent_ableist_verbs doc dverbs dobjs.
Proof.
  assert (Hq : qualifies doc dverbs dobjs obj = true).
  { apply qualifies_spec. split; [done|]. split; [done|]. split; [|done].
    by apply is_verb_spec. }
  split.
  - by rewrite emitted_eq, Hq.
  - apply elem_of_match_dependent. by exists obj.
Qed.

(** In "move them" the object is a pronoun: [is_object] rejects it and the
    dependent matcher still returns "move them". *)
Lemma object_tag_unconstrained_witness :
  let obj := mkToken 1 (mkTokenC "them" false "they" "PRON" "dobj" 0) in
  is_object obj = false
  ∧ get_objects pronoun_doc false = []
  ∧ emitted pronoun_doc {["move"]} {["they"]} obj = [matched_phrase pronoun_doc obj]
  ∧ matched_phrase pronoun_doc obj
      ∈ match_dependent_ableist_verbs pronoun_doc {["move"]} {["they"]}
  ∧ span_text (matched_phrase pronoun_doc obj) = "move them".
Proof.
  intros obj. split; [by_evaluation|]. split; [by_evaluation|].
  split; [|split; [|by_evaluation]];
    apply (object_tag_unconstrained pronoun_doc {["move"]} {["they"]} obj);
    by_evaluation.
Defined.

Lemma sorted_lookup_lt (l : list Token) (a b : nat) (x y : Token) :
  StronglySorted lt (i <$> l) →
  l !! a = Some x → l !! b = Some y → a < b → i x < i y.
Proof.
  revert a b. induction l as [|t l IH]; intros a b Hs Ha Hb Hab; [done|].
  rewrite fmap_cons in Hs. apply StronglySorted_inv in Hs as [Hl Ht].
  destruct b as [|b]; [lia|]. destruct a as [|a]; simpl in *.
  - simplify_eq. rewrite Forall_forall in Ht. apply Ht.
    apply list_elem_of_fmap. exists y. split; [done|].
    by eapply list_elem_of_lookup_2.
  - apply (IH a b); (done || lia).
Qed.

(** C6.  The dependent matcher emits one span for every qualifying direct
    object, neither merged nor deduplicated, in ascending position of the
    object.  The spans of two qualifying objects stand in the output in the
    order of the objects; they differ when the head verbs differ; and the
    first ends where the second begins, or before, exactly when the first
    verb is not after the second and the right edge of the first object is
    before the second verb. *)
Theorem one_span_per_object (doc : Doc) (dverbs dobjs : gset string) :
  let objs := List.filter (qualifies doc dverbs dobjs) (tokens doc) in
  (∀ token : Token,
     token ∈ objs ↔
     token ∈ tokens doc ∧ dep_ token = "dobj"
     ∧ join_condition doc dverbs dobjs token)
  ∧ StronglySorted lt (i <$> objs)
  ∧ match_dependent_ableist_verbs doc dverbs dobjs = matched_phrase doc <$> objs
  ∧ length (match_dependent_ableist_verbs doc dverbs dobjs) = length objs
  ∧ (∀ o1 o2 : Token,
       o1 ∈ objs → o2 ∈ objs → i o1 < i o2 →
       (∃ j1 j2 : nat,
          j1 < j2
          ∧ match_dependent_ableist_verbs doc dverbs dobjs !! j1
            = Some (matched_phrase doc o1)
          ∧ match_dependent_ableist_verbs doc dverbs dobjs !! j2
            = Some (matched_phrase doc o2))
       ∧ (i (head doc o1) ≠ i (head doc o2) →
          matched_phrase doc o1 ≠ matched_phrase doc o2)
       ∧ (end_ (matched_phrase doc o1) ≤ start (matched_phrase doc o2)
          ↔ i (head doc o1) ≤ i (head doc o2)
            ∧ i (right_edge doc o1) < i (head doc o2))).
Proof.
  intros objs.
  assert (Hsorted : StronglySorted lt (i <$> objs)) by apply filter_tokens_sorted.
  assert (Hout : match_dependent_ableist_verbs doc dverbs dobjs
                 = matched_phrase doc <$> objs) by apply match_dependent_eq.
  split; [|split; [done|split; [done|split]]].
  - intros token. unfold objs.
    rewrite list_elem_of_In, filter_In, <- list_elem_of_In, qualifies_spec. tauto.
  - by rewrite Hout, length_fmap.
  - intros o1 o2 Ho1 Ho2 Hlt.
    assert (Hin : ∀ o, o ∈ objs → o ∈ tokens doc).
    { intros o. unfold objs.
      rewrite list_elem_of_In, filter_In, <- list_elem_of_In. tauto. }
    pose proof (Hin o1 Ho1) as Hin1. pose proof (Hin o2 Ho2) as Hin2.
    pose proof (matched_phrase_start doc o1 Hin1) as Hs1.
    pose proof (matched_phrase_start doc o2 Hin2) as Hs2.
    pose proof (token_in_range doc _ (head_elem doc o1 Hin1)) as Hh1.
    pose proof (right_edge_lt doc o1 Hin1) as Hr1.
    split; [|split].
    + apply list_elem_of_lookup in Ho1 as [j1 Hj1].
      apply list_elem_of_lookup in Ho2 as [j2 Hj2].
      exists j1, j2. rewrite Hout, !list_lookup_fmap, Hj1, Hj2.
      split; [|done].
      destruct (decide (j1 < j2)) as [|Hge]; [done|].
      destruct (decide (j1 = j2)) as [->|Hne].
      * rewrite Hj1 in Hj2. simplify_eq. lia.
      * pose proof (sorted_lookup_lt objs j2 j1 o2 o1 Hsorted Hj2 Hj1). lia.
    + intros Hne Heq. rewrite Heq in Hs1. lia.
    + rewrite Hs2. unfold matched_phrase. rewrite doc_slice_end. lia.
Qed.

Lemma one_span_per_object_witness :
  let o1 := mkToken 2 (mkTokenC "hands" true "hand" "NOUN" "dobj" 0) in
  let o2 := mkToken 6 (mkTokenC "feet" false "foot" "NOUN" "dobj" 4) in
  (∃ j1 j2 : nat,
     j1 < j2
     ∧ match_dependent_ableist_verbs two_clause_doc {["move"; "lift"]} {["hand"; "foot"]}
         !! j1 = Some (matched_phrase two_clause_doc o1)
     ∧ match_dependent_ableist_verbs two_clause_doc {["move"; "lift"]} {["hand"; "foot"]}
         !! j2 = Some (matched_phrase two_clause_doc o2))
  ∧ (i (head two_clause_doc o1) ≠ i (head two_clause_doc o2) →
     matched_phrase two_clause_doc o1 ≠ matched_phrase two_clause_doc o2)
  ∧ (end_ (matched_phrase two_clause_doc o1) ≤ start (matched_phrase two_clause_doc o2)
     ↔ i (head two_clause_doc o1) ≤ i (head two_clause_doc o2)
       ∧ i (right_edge two_clause_doc o1) < i (head two_clause_doc o2)).
Proof.
  intros o1 o2.
  apply (proj2 (proj2 (proj2 (proj2
           (one_span_per_object two_clause_doc {["move"; "lift"]} {["hand"; "foot"]}))))
           o1 o2);
    first [by_evaluation | vm_compute; lia].
Defined.

(** The statement of C6 with "two distinct, non-overlapping spans" for any
    two pairs with different verbs fails on "move hands that lift feet":
    "hands" under "move" and "feet" under "lift" are the two qualifying
    pairs, and the phrase of the first, tokens 0 to 4, holds the whole
    phrase of the second, tokens 3 to 4. *)
Lemma nested_pairs_overlap :
  let doc := nested_doc in
  let o1 := mkToken 1 (mkTokenC "hands" true "hand" "NOUN" "dobj" 0) in
  let o2 := mkToken 4 (mkTokenC "feet" false "foot" "NOUN" "dobj" 3) in
  List.filter (qualifies doc {["move"; "lift"]} {["hand"; "foot"]}) (tokens doc)
  = [o1; o2]
  ∧ lemma_ (head doc o1) ≠ lemma_ (head doc o2)
  ∧ i (head doc o1) ≠ i (head doc o2)
  ∧ ¬ ∃ s1 s2 : Span,
        match_dependent_ableist_verbs doc {["move"; "lift"]} {["hand"; "foot"]}
        = [s1; s2]
        ∧ s1 ≠ s2
        ∧ (end_ s1 ≤ start s2 ∨ end_ s2 ≤ start s1).
Proof.
  intros doc o1 o2. repeat (split; [by_evaluation|]).
  intros (s1 & s2 & Hout & _ & Hdisjoint).
  assert (Hrun : match_dependent_ableist_verbs doc {["move"; "lift"]} {["hand"; "foot"]}
                 = [mkSpan doc 0 5; mkSpan doc 3 5]) by by_evaluation.
  rewrite Hrun in Hout. simplify_eq. simpl in Hdisjoint. lia.
Qed.

(** Two objects under one verb: two spans from the same start, kept apart. *)
Example shared_verb_two_spans :
  match_dependent_ableist_verbs shared_verb_doc {["move"]} {["hand"; "foot"]}
  = [mkSpan shared_verb_doc 0 2; mkSpan shared_verb_doc 0 3].
Proof. by_evaluation. Qed.

(** C1.  The entry point returns the standalone matches and nothing else;
    what it computes for the verb phrases goes to the standard output.
    Whenever the dependent matcher finds a phrase in the parsed text, the
    returned list is therefore not the standalone matches followed by the
    phrase matches, and no returned item is a phrase. *)
Theorem find_ableist_terms_returns_verbs_only
    (nlp : string → Doc) (text : string) (w : World) :
  let result := (find_ableist_terms nlp text w).1 in
  let verbs := matched_verbs (ABLEIST_VERBS w) (nlp text) in
  let phrases :=
    match_dependent_ableist_verbs (nlp text)
      (ABLEIST_VERBS_OBJECT_DEPENDENT w) (ABLEIST_OBJECTS w) in
  result = verbs
  ∧ stdout (find_ableist_terms nlp text w).2
    = stdout w ++ [get_verb_phrases (nlp text)]
  ∧ (∀ span : Span, MSpan span ∉ MToken <$> result)
  ∧ (phrases ≠ [] →
     MToken <$> result ≠ (MToken <$> verbs) ++ (MSpan <$> phrases)).
Proof.
  intros result verbs phrases. unfold result. rewrite find_ableist_terms_eq. simpl.
  fold verbs. split; [done|]. split; [done|]. split.
  - intros span (token & Heq & _)%list_elem_of_fmap. discriminate.
  - intros Hne Heq. apply (f_equal length) in Heq.
    rewrite length_app, !length_fmap in Heq.
    destruct phrases; [done|]. simpl in Heq. lia.
Qed.

Lemma find_ableist_terms_returns_verbs_only_witness :
  let nlp := fun _ : string => test_doc in
  let text := "must be able to move your hands repeatedly" in
  (find_ableist_terms nlp text sample_world).1 = []
  ∧ length (match_dependent_ableist_verbs test_doc {["move"]} {["hand"; "foot"]}) = 1
  ∧ MToken <$> (find_ableist_terms nlp text sample_world).1
    ≠ (MToken <$> matched_verbs {["lift"]} test_doc)
      ++ (MSpan <$> match_dependent_ableist_verbs test_doc {["move"]} {["hand"; "foot"]}).
Proof.
  intros nlp text. split; [by_evaluation|]. split; [by_evaluation|].
  apply (proj2 (proj2 (proj2
           (find_ableist_terms_returns_verbs_only nlp text sample_world)))).
  by_evaluation.
Defined.

(** C8.  A run of the entry point is not free of effects: it writes the
    list of verb phrases to the standard output, so the world after a run
    is never the world before it, and a second run writes the same list
    once more.  The list returned is the same in both runs, and the word
    lists are left as they were. *)
Theorem find_ableist_terms_prints_at_every_run
    (nlp : string → Doc) (text : string) (w : World) :
  let first := find_ableist_terms nlp text w in
  let second := find_ableist_terms nlp text first.2 in
  first.2 ≠ w
  ∧ second.2 ≠ first.2
  ∧ stdout first.2 = stdout w ++ [get_verb_phrases (nlp text)]
  ∧ stdout second.2
    = stdout w ++ [get_verb_phrases (nlp text); get_verb_phrases (nlp text)]
  ∧ second.1 = first.1
  ∧ (ABLEIST_VERBS second.2, ABLEIST_OBJECTS second.2,
     ABLEIST_VERBS_OBJECT_DEPENDENT second.2)
    = (ABLEIST_VERBS w, ABLEIST_OBJECTS w, ABLEIST_VERBS_OBJECT_DEPENDENT w).
Proof.
  intros first second. unfold second, first.
  rewrite !find_ableist_terms_eq. cbn [fst snd stdout ABLEIST_VERBS
    ABLEIST_OBJECTS ABLEIST_VERBS_OBJECT_DEPENDENT].
  assert (Hgrow : ∀ (l : list (list VerbPhrase)) v, l ++ [v] ≠ l).
  { intros l v H. apply (f_equal length) in H. rewrite length_app in H.
    simpl in H. lia. }
  split; [|split; [|split; [done|split; [|done]]]].
  - intros H. apply (f_equal stdout) in H. simpl in H. by apply Hgrow in H.
  - intros H. apply (f_equal stdout) in H. simpl in H. by apply Hgrow in H.
  - by rewrite <- app_assoc.
Qed.

(** On the test sentence, with nothing printed before: after one run the
    standard output holds the triple of "move", its object "hands" and the
    child "your" of the object. *)
Example find_ableist_terms_prints_test_sentence :
  stdout (find_ableist_terms (fun _ => test_doc)
            "must be able to move your hands repeatedly" sample_world).2
  = [[(mkToken 4 (mkTokenC "move" true "move" "VERB" "xcomp" 2),
       [mkToken 5 (mkTokenC "your" true "your" "PRON" "poss" 6)],
       mkToken 6 (mkTokenC "hands" true "hand" "NOUN" "dobj" 4))]].
Proof. by_evaluation. Qed.

(** * Further properties of the code *)

(** ** Verbs, nouns and objects of a document *)

Lemma elem_of_list_filter {A} (c : A → bool) (l : list A) (x : A) :
  x ∈ List.filter c l ↔ x ∈ l ∧ c x = true.
Proof. by rewrite !list_elem_of_In, filter_In. Qed.

Lemma list_filter_sublist {A} (c : A → bool) (l : list A) :
  sublist (List.filter c l) l.
Proof.
  induction l as [|x l IH]; simpl; [constructor|].
  destruct (c x); by constructor.
Qed.

Lemma list_filter_filter {A} (c1 c2 : A → bool) (l : list A) :
  List.filter c2 (List.filter c1 l) = List.filter (fun x => c1 x && c2 x) l.
Proof.
  induction l as [|x l IH]; simpl; [done|].
  destruct (c1 x); simpl; [destruct (c2 x)|]; by rewrite ?IH.
Qed.

Lemma list_filter_ext_in {A} (c1 c2 : A → bool) (l : list A) :
  (∀ x, x ∈ l → c1 x = c2 x) → List.filter c1 l = List.filter c2 l.
Proof.
  intros H. apply filter_ext_in. intros x Hx. apply H. by apply list_elem_of_In.
Qed.

(** X1.  No token is both a verb for [is_verb] and an object for
    [is_object]: the lists of [get_verbs] and [get_objects] share no token
    of any document. *)
Theorem verbs_and_objects_disjoint (doc : Doc) (token : Token) :
  (is_verb token && is_object token = false)
  ∧ ¬ (token ∈ get_verbs doc false ∧ token ∈ get_objects doc false).
Proof.
  assert (H : is_verb token && is_object token = false).
  { destruct (is_verb token) eqn:Hv, (is_object token) eqn:Ho; try done.
    apply is_verb_spec in Hv as [Hv _]. apply is_object_spec in Ho as [Ho _].
    rewrite Hv in Ho. discriminate. }
  split; [done|]. intros [Hv Ho].
  apply elem_of_list_filter in Hv as [_ Hv].
  apply elem_of_list_filter in Ho as [_ Ho].
  by rewrite Hv, Ho in H.
Qed.

Lemma get_objects_of_nouns (doc : Doc) :
  get_objects doc false
  = List.filter (fun token : Token => bool_decide (dep_ token = "dobj"))
      (get_nouns doc false).
Proof. unfold get_objects, get_nouns. by rewrite list_filter_filter. Qed.

Lemma get_objects_sublist (doc : Doc) :
  sublist (get_objects doc false) (get_nouns doc false).
Proof. rewrite get_objects_of_nouns. apply list_filter_sublist. Qed.

Lemma get_objects_lemmas_sublist (doc : Doc) :
  sublist (get_objects doc true) (get_nouns doc true).
Proof.
  change (get_objects doc true)
    with ((fun token : Token => lemma_ token) <$> get_objects doc false).
  change (get_nouns doc true)
    with ((fun token : Token => lemma_ token) <$> get_nouns doc false).
  apply fmap_sublist, get_objects_sublist.
Qed.

(** X2.  Every noun object is a noun: [get_objects] returns a subsequence
    of what [get_nouns] returns, for the tokens and for the lemmas, and it
    is the part of [get_nouns] labelled dobj. *)
Theorem objects_among_nouns (doc : Doc) :
  sublist (get_objects doc false) (get_nouns doc false)
  ∧ sublist (get_objects doc true) (get_nouns doc true)
  ∧ get_objects doc false
    = List.filter (fun token : Token => bool_decide (dep_ token = "dobj"))
        (get_nouns doc false).
Proof.
  split; [apply get_objects_sublist|].
  split; [apply get_objects_lemmas_sublist|apply get_objects_of_nouns].
Qed.

(** A child hangs from its parent, so it is in the parent's subtree and not
    beyond its right edge. *)
Lemma elem_of_children (doc : Doc) (token child : Token) :
  child ∈ children doc token ↔
  child ∈ tokens doc ∧ head_i child = i token ∧ i child ≠ i token.
Proof.
  unfold children. rewrite elem_of_list_filter, andb_true_iff, negb_true_iff.
  rewrite !Nat.eqb_eq, Nat.eqb_neq. tauto.
Qed.

Lemma child_head (doc : Doc) (token child : Token) :
  token ∈ tokens doc → child ∈ children doc token → head doc child = token.
Proof.
  intros Ht (Hc & Hh & _)%elem_of_children. unfold head, token_at.
  rewrite Hh. apply elem_of_tokens in Ht. rewrite Ht. simpl. by destruct token.
Qed.

Lemma child_before_right_edge (doc : Doc) (token child : Token) :
  token ∈ tokens doc → child ∈ children doc token →
  i child ≤ i (right_edge doc token).
Proof.
  intros Ht (Hc & Hh & _)%elem_of_children.
  rewrite right_edge_i_spec by done.
  pose proof (token_in_range doc child Hc) as Hlt.
  apply right_edge_i_max; [done|].
  apply elem_of_tokens in Hc.
  destruct (length doc) as [|n]; [lia|]. simpl. rewrite Hc, Hh.
  rewrite reaches_refl. apply orb_true_r.
Qed.

(** X3.  [get_verb_phrases] lists one triple for every token labelled dobj,
    in sentence order.  In a triple the last component is that token, the
    first is its head, and the middle holds tokens of the document that have
    the object as head, differ from it and do not lie beyond its right
    edge. *)
Theorem verb_phrases_structure (doc : Doc) :
  snd <$> get_verb_phrases doc
  = List.filter (fun token : Token => bool_decide (dep_ token = "dobj")) (tokens doc)
  ∧ ∀ (verb : Token) (kids : list Token) (obj : Token),
      (verb, kids, obj) ∈ get_verb_phrases doc →
      obj ∈ tokens doc ∧ dep_ obj = "dobj"
      ∧ verb = head doc obj ∧ verb ∈ tokens doc
      ∧ ∀ child : Token, child ∈ kids →
          child ∈ tokens doc ∧ head doc child = obj ∧ child ≠ obj
          ∧ i child ≤ i (right_edge doc obj).
Proof.
  rewrite get_verb_phrases_eq. split.
  - rewrite <- list_fmap_compose. apply list_fmap_id.
  - intros verb kids obj (t & Heq & Ht)%list_elem_of_fmap. simplify_eq.
    apply elem_of_list_filter in Ht as [Ht Hd]. apply bool_decide_eq_true in Hd.
    split; [done|]. split; [done|]. split; [done|]. split; [by apply head_elem|].
    intros child Hc. pose proof Hc as (Hin & _ & Hne)%elem_of_children.
    split; [done|]. split; [by apply child_head|].
    split; [by intros ->|]. by apply child_before_right_edge.
Qed.

Lemma verb_phrases_structure_witness :
  let obj := mkToken 6 (mkTokenC "hands" true "hand" "NOUN" "dobj" 4) in
  let child := mkToken 5 (mkTokenC "your" true "your" "PRON" "poss" 6) in
  child ∈ tokens test_doc
  ∧ head test_doc child = obj
  ∧ child ≠ obj
  ∧ i child ≤ i (right_edge test_doc obj).
Proof.
  intros obj child.
  apply (proj2 (proj2 (proj2 (proj2
           (proj2 (verb_phrases_structure test_doc)
              (mkToken 4 (mkTokenC "move" true "move" "VERB" "xcomp" 2))
              [child] obj ltac:(by_evaluation)))))
           child).
  by_evaluation.
Defined.

(** X4.  Every phrase of the dependent matcher is cut from a triple of
    [get_verb_phrases]: from the head of the triple to one past the right
    edge of its object, the head being a verb with a listed lemma and the
    object having a listed lemma.  So there are never more matched phrases
    than verb phrases. *)
Theorem dependent_matches_from_verb_phrases (doc : Doc) (dverbs dobjs : gset string) :
  (∀ span : Span,
     span ∈ match_dependent_ableist_verbs doc dverbs dobjs →
     ∃ (verb : Token) (kids : list Token) (obj : Token),
       (verb, kids, obj) ∈ get_verb_phrases doc
       ∧ is_verb verb = true
       ∧ lemma_ verb ∈ dverbs
       ∧ lemma_ obj ∈ dobjs
       ∧ span = doc_slice doc (i verb) (i (right_edge doc obj) + 1))
  ∧ length (match_dependent_ableist_verbs doc dverbs dobjs)
    ≤ length (get_verb_phrases doc).
Proof.
  split.
  - intros span (obj & Hin & Hq & ->)%elem_of_match_dependent.
    exists (head doc obj), (children doc obj), obj.
    unfold qualifies in Hq. rewrite !andb_true_iff, !bool_decide_eq_true in Hq.
    destruct Hq as [[Hd Ho] [Hv Hl]].
    split; [|done]. rewrite get_verb_phrases_eq. apply list_elem_of_fmap.
    exists obj. split; [done|]. apply elem_of_list_filter.
    split; [done|]. by apply bool_decide_eq_true.
  - rewrite match_dependent_eq, get_verb_phrases_eq, !length_fmap.
    replace (List.filter (qualifies doc dverbs dobjs) (tokens doc))
      with (List.filter (qualifies doc dverbs dobjs)
              (List.filter (fun token : Token => bool_decide (dep_ token = "dobj"))
                 (tokens doc))).
    + apply sublist_length, list_filter_sublist.
    + rewrite list_filter_filter. apply list_filter_ext_in. intros token _.
      unfold qualifies. by destruct (bool_decide (dep_ token = "dobj")).
Qed.

Lemma dependent_matches_from_verb_phrases_witness :
  ∃ (verb : Token) (kids : list Token) (obj : Token),
    (verb, kids, obj) ∈ get_verb_phrases test_doc
    ∧ is_verb verb = true
    ∧ lemma_ verb ∈ ({["move"]} : gset string)
    ∧ lemma_ obj ∈ ({["hand"]} : gset string)
    ∧ mkSpan test_doc 4 7 = doc_slice test_doc (i verb) (i (right_edge test_doc obj) + 1).
Proof.
  apply (proj1 (dependent_matches_from_verb_phrases test_doc {["move"]} {["hand"]})).
  by_evaluation.
Defined.

(** X5.  The verb of a matched phrase is one of the verbs [get_verbs]
    returns, and the standalone matcher returns it as well exactly when its
    lemma is also in the list of standalone verbs: a verb listed both ways
    is reported twice, once alone and once inside its phrase. *)
Theorem matched_phrase_verb_is_listed_verb (doc : Doc)
    (verbs dverbs dobjs : gset string) (obj : Token)
    (Hin : obj ∈ tokens doc)
    (Hq : qualifies doc dverbs dobjs obj = true) :
  head doc obj ∈ get_verbs doc false
  ∧ lemma_ (head doc obj) ∈ (get_verbs doc true : list string)
  ∧ (head doc obj ∈ matched_verbs verbs doc ↔ lemma_ (head doc obj) ∈ verbs).
Proof.
  unfold qualifies in Hq. rewrite !andb_true_iff in Hq.
  destruct Hq as [_ [Hv _]].
  assert (Hh : head doc obj ∈ get_verbs doc false).
  { rewrite get_verbs_tokens. apply elem_of_list_filter.
    split; [by apply head_elem|done]. }
  split; [done|]. split.
  - rewrite get_verbs_lemmas. apply list_elem_of_fmap. by exists (head doc obj).
  - rewrite elem_of_matched_verbs. split; [tauto|].
    intros Hl. split; [by apply head_elem|]. by split.
Qed.

Lemma matched_phrase_verb_is_listed_verb_witness :
  let obj := mkToken 6 (mkTokenC "hands" true "hand" "NOUN" "dobj" 4) in
  head test_doc obj ∈ get_verbs test_doc false
  ∧ lemma_ (head test_doc obj) ∈ (get_verbs test_doc true : list string)
  ∧ (head test_doc obj ∈ matched_verbs {["move"]} test_doc
     ↔ lemma_ (head test_doc obj) ∈ ({["move"]} : gset string)).
Proof.
  intros obj.
  apply (matched_phrase_verb_is_listed_verb test_doc {["move"]} {["move"]} {["hand"]} obj);
    by_evaluation.
Defined.

(** ** Rows of the content model reference *)

Lemma zip_with_fmap_same {A B C D} (op : B → C → D) (f : A → B) (g : A → C)
    (l : list A) :
  zip_with op (f <$> l) (g <$> l) = (fun x => op (f x) (g x)) <$> l.
Proof. induction l as [|x l IH]; csimpl; [done|]. by rewrite IH. Qed.

Lemma select_rows_filter (c : Row → bool) (df : DataFrame) :
  select_rows df (c <$> df) = List.filter c df.
Proof.
  unfold select_rows. induction df as [|r df IH]; [done|].
  rewrite fmap_cons. cbn [zip zip_with List.filter snd].
  destruct (c r); [rewrite fmap_cons; cbn [fst]|]; by rewrite IH.
Qed.

Lemma get_abilities_filter (df : DataFrame) :
  get_abilities df = List.filter is_ability_row df.
Proof.
  unfold get_abilities, mask_and, series_eq, str_len, str_startswith.
  rewrite <- !list_fmap_compose, zip_with_fmap_same.
  apply (select_rows_filter is_ability_row).
Qed.

Lemma get_skills_filter (df : DataFrame) :
  get_skills df = List.filter is_skill_row df.
Proof.
  unfold get_skills, mask_and, mask_or, series_eq, str_len, str_startswith.
  rewrite <- !list_fmap_compose, !zip_with_fmap_same.
  apply (select_rows_filter is_skill_row).
Qed.

Lemma ability_not_skill (r : Row) : is_ability_row r && is_skill_row r = false.
Proof.
  destruct (is_ability_row r) eqn:Ha, (is_skill_row r) eqn:Hs; try done.
  unfold is_ability_row in Ha. unfold is_skill_row in Hs.
  apply andb_true_iff in Ha as [_ Ha]. apply andb_true_iff in Hs as [_ Hs].
  apply Nat.eqb_eq in Ha, Hs. lia.
Qed.

Lemma list_filter_idemp {A} (c : A → bool) (l : list A) :
  List.filter c (List.filter c l) = List.filter c l.
Proof.
  rewrite list_filter_filter. apply list_filter_ext_in. intros x _.
  by destruct (c x).
Qed.

Lemma list_filter_none {A} (c : A → bool) (l : list A) :
  (∀ x, x ∈ l → c x = false) → List.filter c l = [].
Proof.
  intros H. induction l as [|x l IH]; simpl; [done|].
  rewrite (H x) by left. apply IH. intros y Hy. apply H. by right.
Qed.

(** X6.  [get_abilities] keeps exactly the rows whose identifier starts
    with "1.A" and has nine characters, [get_skills] exactly those whose
    identifier starts with "2.A" or "2.B" and has seven: every such row as
    often as the frame has it and in the order of the frame, and no other.
    Both selections work row by row, so they distribute over the
    concatenation of frames, and selecting a second time changes nothing. *)
Theorem abilities_and_skills_rows (df df' : DataFrame) :
  get_abilities df
  = List.filter
      (fun r => String.prefix "1.A" (Element_ID r) && (py_len (Element_ID r) =? 9))
      df
  ∧ get_skills df
    = List.filter
        (fun r => (String.prefix "2.A" (Element_ID r)
                   || String.prefix "2.B" (Element_ID r))
                  && (py_len (Element_ID r) =? 7))
        df
  ∧ get_abilities (df ++ df') = get_abilities df ++ get_abilities df'
  ∧ get_skills (df ++ df') = get_skills df ++ get_skills df'
  ∧ get_abilities (get_abilities df) = get_abilities df
  ∧ get_skills (get_skills df) = get_skills df.
Proof.
  rewrite !get_abilities_filter, !get_skills_filter.
  split; [done|]. split; [done|].
  split; [apply List.filter_app|]. split; [apply List.filter_app|].
  split; apply list_filter_idemp.
Qed.

(** A repeated row is kept twice, and an identifier of nine characters one
    of which takes two bytes is an ability. *)
Example abilities_keep_repeated_rows :
  let r := mkRow "1.A.1.a.1" "Oral Comprehension" "listen" in
  let accented := mkRow "1.A.1.a.é" "" "" in
  get_abilities [r; mkRow "1.A.1.a" "Verbal Abilities" ""; r; accented]
  = [r; r; accented].
Proof. by_evaluation. Qed.

(** X7.  No row is both an ability and a skill: the two selections share no
    row, and selecting the skills of the abilities, or the abilities of the
    skills, gives the empty frame. *)
Theorem abilities_skills_disjoint (df : DataFrame) :
  (∀ r : Row, ¬ (r ∈ get_abilities df ∧ r ∈ get_skills df))
  ∧ get_skills (get_abilities df) = []
  ∧ get_abilities (get_skills df) = [].
Proof.
  rewrite !get_abilities_filter, !get_skills_filter. split; [|split].
  - intros r [[_ Ha]%elem_of_list_filter [_ Hs]%elem_of_list_filter].
    pose proof (ability_not_skill r) as H. by rewrite Ha, Hs in H.
  - apply list_filter_none. intros r [_ Ha]%elem_of_list_filter.
    pose proof (ability_not_skill r) as H. rewrite Ha in H. done.
  - apply list_filter_none. intros r [_ Hs]%elem_of_list_filter.
    pose proof (ability_not_skill r) as H. rewrite Hs in H.
    by destruct (is_ability_row r).
Qed.

(** ** Representative terms *)

Lemma for_each_extend {A B} (f : A → list B) (l : list A) (acc : list B) :
  for_each l (fun x => extend (f x)) acc = (tt, acc ++ concat (f <$> l)).
Proof.
  revert acc. induction l as [|x l IH]; intros acc; csimpl.
  - by rewrite app_nil_r.
  - unfold mbind, state_bind, extend, modify. rewrite IH.
    by rewrite <- app_assoc.
Qed.

Lemma corpus_verbs_eq (nlp : string → Doc) (corpus : list string) :
  corpus_verbs nlp corpus
  = concat ((fun text => get_verbs (nlp text) true) <$> corpus).
Proof.
  unfold corpus_verbs, returning_list. rewrite for_each_extend. simpl.
  by rewrite <- list_fmap_compose.
Qed.

Lemma elem_of_concat_fmap {A B} (f : A → list B) (l : list A) (y : B) :
  y ∈ concat (f <$> l) ↔ ∃ x, x ∈ l ∧ y ∈ f x.
Proof.
  induction l as [|x l IH]; csimpl.
  - split; [by intros ?%elem_of_nil|]. by intros (x & ?%elem_of_nil & _).
  - rewrite elem_of_app, IH. split.
    + intros [Hy|(z & Hz & Hy)]; [exists x; split; [left|done]|].
      exists z. split; [by right|done].
    + intros (z & [->|Hz]%elem_of_cons & Hy); [by left|]. right. by exists z.
Qed.

Lemma elem_of_corpus_verbs (nlp : string → Doc) (corpus : list string) (x : string) :
  x ∈ corpus_verbs nlp corpus ↔
  ∃ text, text ∈ corpus ∧ x ∈ (get_verbs (nlp text) true : list string).
Proof. rewrite corpus_verbs_eq. apply elem_of_concat_fmap. Qed.

(** A counter holds, for every string, the number of its occurrences. *)
Lemma counter_get_Counter (l : list string) (x : string) :
  counter_get (Counter l) x = occurrences x l.
Proof.
  unfold Counter.
  assert (H : ∀ c : gmap string nat,
    counter_get
      (foldl (fun counter y => <[y := S (default 0 (counter !! y))]> counter) c l) x
    = counter_get c x + occurrences x l).
  { induction l as [|y l IH]; intros c; simpl.
    - unfold occurrences. simpl. lia.
    - rewrite IH. unfold occurrences, counter_get. simpl.
      destruct (decide (y = x)) as [->|Hne].
      + rewrite lookup_insert_eq, bool_decide_eq_true_2 by done. simpl. lia.
      + rewrite lookup_insert_ne, bool_decide_eq_false_2 by done. lia. }
  rewrite H. unfold counter_get. by rewrite lookup_empty.
Qed.

Lemma insert_by_perm {A} (key : A → Z) (x : A) (l : list A) :
  insert_by key x l ≡ₚ x :: l.
Proof.
  induction l as [|y l IH]; simpl; [done|].
  destruct (key y <? key x)%Z; [|done].
  rewrite IH. apply Permutation_swap.
Qed.

Lemma sorted_perm {A} (key : A → Z) (l : list A) : sorted key l ≡ₚ l.
Proof.
  induction l as [|x l IH]; simpl; [done|].
  rewrite insert_by_perm. by rewrite IH.
Qed.

Lemma insert_by_sorted {A} (key : A → Z) (x : A) (l : list A) :
  StronglySorted (fun a b => (key a ≤ key b)%Z) l →
  StronglySorted (fun a b => (key a ≤ key b)%Z) (insert_by key x l).
Proof.
  induction l as [|y l IH]; simpl; intros Hs.
  - repeat constructor.
  - apply StronglySorted_inv in Hs as [Hl Hy].
    destruct (key y <? key x)%Z eqn:E.
    + apply Z.ltb_lt in E. constructor; [by apply IH|].
      rewrite Forall_forall in Hy |- *. intros z Hz.
      rewrite insert_by_perm in Hz.
      apply elem_of_cons in Hz as [->|Hz]; [lia|by apply Hy].
    + apply Z.ltb_ge in E. constructor; [by constructor|].
      constructor; [done|]. rewrite Forall_forall in Hy |- *.
      intros z Hz. specialize (Hy z Hz). lia.
Qed.

Lemma sorted_sorted {A} (key : A → Z) (l : list A) :
  StronglySorted (fun a b => (key a ≤ key b)%Z) (sorted key l).
Proof.
  induction l as [|x l IH]; simpl; [constructor|]. by apply insert_by_sorted.
Qed.

(** The sort is stable: the elements with one key keep their order. *)
Lemma insert_by_stable {A} (key : A → Z) (k : Z) (x : A) (l : list A) :
  List.filter (fun y => (key y =? k)%Z) (insert_by key x l)
  = List.filter (fun y => (key y =? k)%Z) (x :: l).
Proof.
  induction l as [|y l IH]; [done|]. cbn [insert_by].
  destruct (key y <? key x)%Z eqn:E; [|done].
  apply Z.ltb_lt in E. cbn [List.filter] in *. rewrite IH.
  destruct (key x =? k)%Z eqn:Ex, (key y =? k)%Z eqn:Ey; try done.
  apply Z.eqb_eq in Ex, Ey. lia.
Qed.

Lemma sorted_stable {A} (key : A → Z) (k : Z) (l : list A) :
  List.filter (fun y => (key y =? k)%Z) (sorted key l)
  = List.filter (fun y => (key y =? k)%Z) l.
Proof.
  induction l as [|x l IH]; [done|]. cbn [sorted foldr].
  rewrite insert_by_stable. cbn [List.filter]. fold (sorted key l).
  by rewrite IH.
Qed.

Lemma StronglySorted_impl {A} (R1 R2 : A → A → Prop) (l : list A) :
  (∀ x y, R1 x y → R2 x y) → StronglySorted R1 l → StronglySorted R2 l.
Proof.
  intros HR. induction 1 as [|x l Hl IH Hx]; constructor; [done|].
  eapply Forall_impl; [done|]. intros y. apply HR.
Qed.

(** X8.  Both lists of [get_representative_terms] are in descending order
    of how often the lemma occurs among the verbs of the corpus the list
    stands for, whatever the order in which the set difference is
    enumerated; lemmas that occur equally often keep that order. *)
Theorem representative_terms_by_frequency (nlp : string → Doc)
    (list_of_set : gset string → list string)
    (abilities_corpus skills_corpus : list string) :
  let abilities_verbs := corpus_verbs nlp abilities_corpus in
  let skills_verbs := corpus_verbs nlp skills_corpus in
  let result :=
    get_representative_terms nlp list_of_set abilities_corpus skills_corpus in
  StronglySorted
    (fun x y => occurrences y abilities_verbs ≤ occurrences x abilities_verbs)
    result.1
  ∧ StronglySorted
      (fun x y => occurrences y skills_verbs ≤ occurrences x skills_verbs)
      result.2
  ∧ (∀ n : nat,
       List.filter (fun x => occurrences x abilities_verbs =? n) result.1
       = List.filter (fun x => occurrences x abilities_verbs =? n)
           (list_of_set (list_to_set abilities_verbs ∖ list_to_set skills_verbs)))
  ∧ (∀ n : nat,
       List.filter (fun x => occurrences x skills_verbs =? n) result.2
       = List.filter (fun x => occurrences x skills_verbs =? n)
           (list_of_set (list_to_set skills_verbs ∖ list_to_set abilities_verbs))).
Proof.
  intros abilities_verbs skills_verbs result.
  assert (Hsorted : ∀ (verbs : list string) (l : list string),
    StronglySorted (fun x y => occurrences y verbs ≤ occurrences x verbs)
      (sorted (fun x => (- Z.of_nat (counter_get (Counter verbs) x))%Z) l)).
  { intros verbs l. eapply StronglySorted_impl; [|apply sorted_sorted].
    intros x y. simpl. rewrite !counter_get_Counter. lia. }
  assert (Hstable : ∀ (verbs : list string) (l : list string) (n : nat),
    List.filter (fun x => occurrences x verbs =? n)
      (sorted (fun x => (- Z.of_nat (counter_get (Counter verbs) x))%Z) l)
    = List.filter (fun x => occurrences x verbs =? n) l).
  { intros verbs l n.
    set (key := fun x => (- Z.of_nat (counter_get (Counter verbs) x))%Z).
    assert (Hext : ∀ x, (occurrences x verbs =? n)
                        = (key x =? - Z.of_nat n)%Z).
    { intros x. unfold key. rewrite counter_get_Counter.
      destruct (occurrences x verbs =? n) eqn:E.
      - apply Nat.eqb_eq in E. symmetry. apply Z.eqb_eq. lia.
      - apply Nat.eqb_neq in E. symmetry. apply Z.eqb_neq. lia. }
    rewrite !(filter_ext _ _ Hext). apply sorted_stable. }
  split; [apply Hsorted|]. split; [apply Hsorted|].
  split; intros n; apply Hstable.
Qed.

Lemma elem_of_list_of_set (list_of_set : gset string → list string)
    (Hset : ∀ X : gset string, list_of_set X ≡ₚ elements X)
    (X : gset string) (x : string) :
  x ∈ list_of_set X ↔ x ∈ X.
Proof. by rewrite Hset, elem_of_elements. Qed.

Lemma NoDup_list_of_set (list_of_set : gset string → list string)
    (Hset : ∀ X : gset string, list_of_set X ≡ₚ elements X)
    (X : gset string) :
  NoDup (list_of_set X).
Proof. rewrite Hset. apply NoDup_elements. Qed.

(** X9.  When [list] enumerates every element of a set once, the first list
    of [get_representative_terms] holds, once each, exactly the lemmas that
    are a verb of some abilities text and of no skills text, the second
    list the same with the corpora exchanged; so no lemma is in both
    lists. *)
Theorem representative_terms_membership (nlp : string → Doc)
    (list_of_set : gset string → list string)
    (Hset : ∀ X : gset string, list_of_set X ≡ₚ elements X)
    (abilities_corpus skills_corpus : list string) :
  let verb_of (corpus : list string) (x : string) :=
    ∃ text, text ∈ corpus ∧ x ∈ (get_verbs (nlp text) true : list string) in
  let result :=
    get_representative_terms nlp list_of_set abilities_corpus skills_corpus in
  (∀ x, x ∈ result.1 ↔ verb_of abilities_corpus x ∧ ¬ verb_of skills_corpus x)
  ∧ (∀ x, x ∈ result.2 ↔ verb_of skills_corpus x ∧ ¬ verb_of abilities_corpus x)
  ∧ NoDup result.1 ∧ NoDup result.2
  ∧ (∀ x, ¬ (x ∈ result.1 ∧ x ∈ result.2)).
Proof.
  intros verb_of result.
  assert (H1 : ∀ x, x ∈ result.1
                    ↔ verb_of abilities_corpus x ∧ ¬ verb_of skills_corpus x).
  { intros x. unfold result, get_representative_terms. simpl.
    rewrite sorted_perm, (elem_of_list_of_set _ Hset).
    by rewrite elem_of_difference, !elem_of_list_to_set, !elem_of_corpus_verbs. }
  assert (H2 : ∀ x, x ∈ result.2
                    ↔ verb_of skills_corpus x ∧ ¬ verb_of abilities_corpus x).
  { intros x. unfold result, get_representative_terms. simpl.
    rewrite sorted_perm, (elem_of_list_of_set _ Hset).
    by rewrite elem_of_difference, !elem_of_list_to_set, !elem_of_corpus_verbs. }
  split; [done|]. split; [done|].
  split; [|split].
  - unfold result, get_representative_terms. simpl.
    rewrite sorted_perm. by apply NoDup_list_of_set.
  - unfold result, get_representative_terms. simpl.
    rewrite sorted_perm. by apply NoDup_list_of_set.
  - intros x [Ha Hs]. apply H1 in Ha. apply H2 in Hs. tauto.
Qed.

Lemma representative_terms_membership_witness :
  get_representative_terms sample_nlp elements
    ["move your hands and lift your feet"] ["move them"]
  = (["lift"], [])
  ∧ NoDup (get_representative_terms sample_nlp elements
             ["move your hands and lift your feet"] ["move them"]).1.
Proof.
  split; [by_evaluation|].
  apply (representative_terms_membership sample_nlp elements
           (fun X => reflexivity (elements X))
           ["move your hands and lift your feet"] ["move them"]).
Defined.

(** X10.  When [list] enumerates every element of a set once, a corpus
    compared with itself has no representative terms, and more generally
    the first list is empty as soon as every verb of an abilities text is
    also a verb of a skills text. *)
Theorem representative_terms_of_covered_corpus (nlp : string → Doc)
    (list_of_set : gset string → list string)
    (Hset : ∀ X : gset string, list_of_set X ≡ₚ elements X)
    (abilities_corpus skills_corpus : list string) :
  get_representative_terms nlp list_of_set abilities_corpus abilities_corpus
  = ([], [])
  ∧ ((∀ x, x ∈ corpus_verbs nlp abilities_corpus →
           x ∈ corpus_verbs nlp skills_corpus) →
     (get_representative_terms nlp list_of_set abilities_corpus skills_corpus).1
     = []).
Proof.
  assert (Hempty : ∀ l1 l2 : list string,
    (∀ x, x ∈ l1 → x ∈ l2) →
    sorted (fun x => (- Z.of_nat (counter_get (Counter l1) x))%Z)
      (list_of_set (list_to_set l1 ∖ list_to_set l2)) = []).
  { intros l1 l2 Hsub. apply Permutation_nil_r. rewrite sorted_perm, Hset.
    replace (list_to_set l1 ∖ list_to_set l2 : gset string) with (∅ : gset string).
    - by rewrite elements_empty.
    - apply set_eq. intros x.
      rewrite elem_of_difference, !elem_of_list_to_set.
      split; [by intros ?%elem_of_empty|]. intros [H1 H2]. destruct H2. by apply Hsub. }
  split.
  - unfold get_representative_terms. by rewrite Hempty.
  - intros Hsub. unfold get_representative_terms. simpl. by apply Hempty.
Qed.

Lemma representative_terms_of_covered_corpus_witness :
  get_representative_terms sample_nlp elements ["move them"] ["move them"]
  = ([], [])
  ∧ (get_representative_terms sample_nlp elements
       ["move them"] ["move your hands and lift your feet"]).1 = [].
Proof.
  destruct (representative_terms_of_covered_corpus sample_nlp elements
              (fun X => reflexivity (elements X))
              ["move them"] ["move your hands and lift your feet"]) as [H1 H2].
  split; [exact H1|]. apply H2.
  intros x Hx. assert (x = "move") as ->.
  { change (x ∈ ["move"]) in Hx. by apply list_elem_of_singleton in Hx. }
  by_evaluation.
Defined.

(** X11.  When [list] enumerates every element of a set once, the lemmas
    returned by [get_objects_corpus] are without repetition, are exactly
    the lemmas of the noun objects of the texts, and are all among the
    lemmas returned by [get_nouns_corpus]. *)
Theorem corpus_objects_among_corpus_nouns (nlp : string → Doc)
    (list_of_set : gset string → list string)
    (Hset : ∀ X : gset string, list_of_set X ≡ₚ elements X)
    (corpus : list string) :
  NoDup (get_objects_corpus nlp list_of_set corpus)
  ∧ NoDup (get_nouns_corpus nlp list_of_set corpus)
  ∧ (∀ x, x ∈ get_objects_corpus nlp list_of_set corpus ↔
          ∃ text, text ∈ corpus
                  ∧ x ∈ (get_objects (nlp text) true : list string))
  ∧ (∀ x, x ∈ get_objects_corpus nlp list_of_set corpus →
          x ∈ get_nouns_corpus nlp list_of_set corpus).
Proof.
  assert (Hobj : ∀ x, x ∈ get_objects_corpus nlp list_of_set corpus ↔
    ∃ text, text ∈ corpus ∧ x ∈ (get_objects (nlp text) true : list string)).
  { intros x. unfold get_objects_corpus, returning_list.
    rewrite (elem_of_list_of_set _ Hset), elem_of_list_to_set, for_each_extend.
    simpl. rewrite <- list_fmap_compose. apply elem_of_concat_fmap. }
  assert (Hnoun : ∀ x, x ∈ get_nouns_corpus nlp list_of_set corpus ↔
    ∃ text, text ∈ corpus ∧ x ∈ (get_nouns (nlp text) true : list string)).
  { intros x. unfold get_nouns_corpus, returning_list.
    rewrite (elem_of_list_of_set _ Hset), elem_of_list_to_set, for_each_extend.
    simpl. rewrite <- list_fmap_compose. apply elem_of_concat_fmap. }
  split; [by apply NoDup_list_of_set|]. split; [by apply NoDup_list_of_set|].
  split; [done|].
  intros x (text & Hin & Hx)%Hobj. apply Hnoun. exists text. split; [done|].
  eapply sublist_subseteq; [|done]. apply get_objects_lemmas_sublist.
Qed.

Lemma corpus_objects_among_corpus_nouns_witness :
  NoDup (get_objects_corpus sample_nlp elements
           ["move your hands and lift your feet"; "move them"])
  ∧ "hand" ∈ get_nouns_corpus sample_nlp elements
               ["move your hands and lift your feet"; "move them"].
Proof.
  destruct (corpus_objects_among_corpus_nouns sample_nlp elements
              (fun X => reflexivity (elements X))
              ["move your hands and lift your feet"; "move them"])
    as (H1 & _ & _ & H4).
  split; [exact H1|]. apply H4. by_evaluation.
Defined.

(** ** The model-serving wrappers *)

(** *** Decimal keys *)

Lemma str_nat_inj (m n : nat) : str_nat m = str_nat n → m = n.
Proof.
  unfold str_nat. intros H. apply Unsigned.to_uint_inj.
  apply (f_equal NilEmpty.uint_of_string) in H.
  rewrite !NilEmpty.usu in H. by simplify_eq.
Qed.

Lemma str_nat_no_colon (n : nat) : has_colon (str_nat n) = false.
Proof.
  unfold str_nat. generalize (Nat.to_uint n). intros d.
  induction d; simpl; try done.
Qed.

Lemma has_colon_app (s t : string) :
  has_colon (s +:+ t) = has_colon s || has_colon t.
Proof.
  induction s as [|c s IH]; simpl; [done|]. by rewrite IH, orb_assoc.
Qed.

(** Two strings without a colon, each followed by a colon and a rest: equal
    wholes have equal parts. *)
Lemma colon_split (s1 s2 t1 t2 : string) :
  has_colon s1 = false → has_colon s2 = false →
  s1 +:+ ":" +:+ t1 = s2 +:+ ":" +:+ t2 → s1 = s2 ∧ t1 = t2.
Proof.
  revert s2. induction s1 as [|c s1 IH]; intros [|c2 s2]; simpl; intros H1 H2 Heq.
  - by simplify_eq.
  - by simplify_eq.
  - by simplify_eq.
  - apply orb_false_iff in H1 as [_ H1]. apply orb_false_iff in H2 as [_ H2].
    simplify_eq. destruct (IH s2 H1 H2) as [-> ->]; done.
Qed.

(** X12.  The keys of [decoder_mlflow_local] tell the matches apart by
    kind and position: a token and a span never share a key, two tokens
    share one only at the same position, two spans only with the same start
    and the same end. *)
Theorem local_keys_separate (token token' : Token) (span span' : Span) :
  decoder_mlflow_local.key (MToken token) ≠ decoder_mlflow_local.key (MSpan span)
  ∧ (decoder_mlflow_local.key (MToken token) = decoder_mlflow_local.key (MToken token')
     ↔ i token = i token')
  ∧ (decoder_mlflow_local.key (MSpan span) = decoder_mlflow_local.key (MSpan span')
     ↔ start span = start span' ∧ end_ span = end_ span').
Proof.
  simpl. split; [|split].
  - intros H. apply (f_equal has_colon) in H.
    rewrite str_nat_no_colon, !has_colon_app in H. simpl in H.
    by rewrite orb_true_r in H.
  - split; [apply str_nat_inj|by intros ->].
  - split; [|by intros [-> ->]].
    intros [H1 H2]%colon_split; try apply str_nat_no_colon.
    split; by apply str_nat_inj.
Qed.

(** *** Writing an entry *)

Lemma exc_bind_run {S A B} (m : Exc S A) (f : A → Exc S B) (s : S) :
  (m ≫= f) s
  = match m s with
    | (inl e, s') => (inl e, s')
    | (inr a, s') => f a s'
    end.
Proof. reflexivity. Qed.

Lemma for_each_exc_cons {S A} (x : A) (l : list A) (body : A → Exc S unit) (s : S) :
  for_each_exc (x :: l) body s
  = match body x s with
    | (inl e, s') => (inl e, s')
    | (inr _, s') => for_each_exc l body s'
    end.
Proof. reflexivity. Qed.

Lemma for_each_exc_ok {S A} (x : A) (l : list A) (body : A → Exc S unit)
    (s s' : S) :
  body x s = (inr tt, s') → for_each_exc (x :: l) body s = for_each_exc l body s'.
Proof. intros H. by rewrite for_each_exc_cons, H. Qed.

Lemma for_each_exc_err {S A} (x : A) (l : list A) (body : A → Exc S unit)
    (s s' : S) (e : Exn) :
  body x s = (inl e, s') → for_each_exc (x :: l) body s = (inl e, s').
Proof. intros H. by rewrite for_each_exc_cons, H. Qed.

Section Entries.
Context {Attr V : Type} (wrap : Attr → V).
Implicit Types (env : Env V) (entry : gmap string V).

Lemma write_attr_some (g : string → option Attr) (key p : string) (a : Attr)
    env entry :
  g p = Some a → terms env !! key = Some entry →
  (attribute (g p) ≫= fun a => set_item key p (wrap a)) env
  = (inr tt, mkEnv (<[key := <[p := wrap a]> entry]> (terms env)) (console env)).
Proof.
  intros Hp Hkey. rewrite exc_bind_run, Hp. simpl. unfold set_item. by rewrite Hkey.
Qed.

Lemma write_attr_none (g : string → option Attr) (key p : string) env :
  g p = None →
  (attribute (g p) ≫= fun a => set_item key p (wrap a)) env
  = (inl AttributeError, env).
Proof. intros Hp. by rewrite exc_bind_run, Hp. Qed.

(** The loop over the requested properties when every attribute exists. *)
Lemma properties_loop_ok (g : string → option Attr) (key : string)
    (properties : list string) env entry :
  (∀ at_, at_ ∈ properties → is_Some (g at_)) →
  terms env !! key = Some entry →
  for_each_exc properties
    (fun at_ => attribute (g at_) ≫= fun a => set_item key at_ (wrap a)) env
  = (inr tt,
     mkEnv (<[key := with_attrs wrap g properties entry]> (terms env)) (console env)).
Proof.
  revert env entry. induction properties as [|p ps IH]; intros env entry Hall Hkey.
  - simpl. unfold mret, exc_ret. rewrite insert_id by done. by destruct env.
  - destruct (Hall p) as [a Ha]; [left|].
    rewrite (for_each_exc_ok p ps
               (fun at_ => attribute (g at_) ≫= fun a => set_item key at_ (wrap a))
               env _ (write_attr_some g key p a env entry Ha Hkey)).
    rewrite (IH _ (<[p := wrap a]> entry)).
    + cbn [terms console]. rewrite insert_insert_eq.
      unfold with_attrs. cbn [foldl]. by rewrite Ha.
    + intros at_ Hat. apply Hall. by right.
    + cbn [terms]. apply lookup_insert_eq.
Qed.

(** The same loop when some attribute is missing: [AttributeError], and
    nothing printed. *)
Lemma properties_loop_fail (g : string → option Attr) (key : string)
    (properties : list string) env entry :
  (∃ at_, at_ ∈ properties ∧ g at_ = None) →
  terms env !! key = Some entry →
  (for_each_exc properties
     (fun at_ => attribute (g at_) ≫= fun a => set_item key at_ (wrap a)) env).1
  = inl AttributeError
  ∧ console
      (for_each_exc properties
         (fun at_ => attribute (g at_) ≫= fun a => set_item key at_ (wrap a)) env).2
    = console env.
Proof.
  revert env entry. induction properties as [|p ps IH]; intros env entry Hex Hkey.
  - destruct Hex as (at_ & ?%elem_of_nil & _). done.
  - destruct (g p) as [a|] eqn:Hp.
    + rewrite (for_each_exc_ok p ps
                 (fun at_ => attribute (g at_) ≫= fun a => set_item key at_ (wrap a))
                 env _ (write_attr_some g key p a env entry Hp Hkey)).
      destruct (IH (mkEnv (<[key := <[p := wrap a]> entry]> (terms env)) (console env))
                  (<[p := wrap a]> entry)) as [H1 H2]; [| |done].
      * destruct Hex as (at_ & [->|Hin]%elem_of_cons & Hnone); [congruence|].
        by exists at_.
      * cbn [terms]. apply lookup_insert_eq.
    + by rewrite (for_each_exc_err p ps
                    (fun at_ => attribute (g at_) ≫= fun a => set_item key at_ (wrap a))
                    env _ _ (write_attr_none g key p env Hp)).
Qed.

(** What an entry holds after the attributes were written. *)
Lemma with_attrs_lookup (g : string → option Attr) (properties : list string)
    entry (name : string) :
  (∀ at_, at_ ∈ properties → is_Some (g at_)) →
  with_attrs wrap g properties entry !! name
  = if bool_decide (name ∈ properties) then wrap <$> g name else entry !! name.
Proof.
  revert entry. induction properties as [|p ps IH]; intros entry Hall; [done|].
  destruct (Hall p) as [a Ha]; [left|].
  unfold with_attrs. cbn [foldl]. rewrite Ha.
  fold (with_attrs wrap g ps (<[p := wrap a]> entry)).
  rewrite IH by (intros at_ Hat; apply Hall; by right).
  destruct (decide (name ∈ ps)) as [Hin|Hnin].
  - rewrite !bool_decide_eq_true_2; [done|by right|done].
  - rewrite (bool_decide_eq_false_2 (name ∈ ps)) by done.
    destruct (decide (name = p)) as [->|Hne].
    + rewrite lookup_insert_eq, bool_decide_eq_true_2 by left. by rewrite Ha.
    + rewrite lookup_insert_ne by done.
      rewrite bool_decide_eq_false_2; [done|].
      intros [->|?]%elem_of_cons; done.
Qed.

End Entries.

(** The dictionary built by filing the entries one after the other holds,
    under each key, the entry of the last element with that key. *)
Lemma filed_lookup {A V} (key : A → string) (entry : A → V) (l : list A)
    (d0 : gmap string V) (k : string) :
  foldl (fun d x => <[key x := entry x]> d) d0 l !! k
  = match last_with (fun x => bool_decide (key x = k)) l with
    | Some x => Some (entry x)
    | None => d0 !! k
    end.
Proof.
  revert d0. induction l as [|x l IH]; intros d0; [done|].
  cbn [foldl]. rewrite IH. unfold last_with. cbn [List.filter].
  destruct (decide (key x = k)) as [Hk|Hk].
  - rewrite bool_decide_eq_true_2 by done.
    destruct (List.filter _ l) as [|y l'] eqn:E.
    + simpl. rewrite <- Hk. apply lookup_insert_eq.
    + rewrite last_cons_cons.
      destruct (last (y :: l')) eqn:EL; [done|]. by apply last_None in EL.
  - rewrite bool_decide_eq_false_2 by done.
    destruct (last _); [done|]. by apply lookup_insert_ne.
Qed.

Lemma last_with_elem {A} (c : A → bool) (l : list A) (x : A) :
  last_with c l = Some x → x ∈ l ∧ c x = true.
Proof.
  unfold last_with. intros H. apply elem_of_list_filter.
  apply last_Some in H as [l' ->]. apply elem_of_app. right. left.
Qed.

Lemma last_with_none {A} (c : A → bool) (l : list A) :
  last_with c l = None ↔ ∀ x, x ∈ l → c x = false.
Proof.
  unfold last_with. rewrite last_None. split.
  - intros H x Hx. destruct (c x) eqn:E; [|done].
    assert (Hin : x ∈ List.filter c l) by (by apply elem_of_list_filter).
    rewrite H in Hin. by apply elem_of_nil in Hin.
  - intros H. by apply list_filter_none.
Qed.

(** A loop whose body either files something or raises [AttributeError],
    depending on the element alone. *)
Lemma for_each_exc_fold {S A T} (proj : S → T) (F : A → T → T) (ok : A → bool)
    (body : A → Exc S unit) :
  (∀ x s, ok x = true →
          (body x s).1 = inr tt ∧ proj (body x s).2 = F x (proj s)) →
  (∀ x s, ok x = false → (body x s).1 = inl AttributeError) →
  ∀ l s,
    if forallb ok l
    then (for_each_exc l body s).1 = inr tt
         ∧ proj (for_each_exc l body s).2 = foldl (fun t x => F x t) (proj s) l
    else (for_each_exc l body s).1 = inl AttributeError.
Proof.
  intros Hok Herr. induction l as [|x l IH]; intros s; [done|].
  rewrite for_each_exc_cons. cbn [forallb foldl].
  destruct (ok x) eqn:E; simpl.
  - destruct (Hok x s E) as [H1 H2]. destruct (body x s) as [[e|[]] s'].
    + simpl in H1. discriminate.
    + simpl in H2. rewrite <- H2. apply IH.
  - pose proof (Herr x s E) as H1. destruct (body x s) as [[e|[]] s'].
    + simpl in H1. simplify_eq. by destruct (forallb ok l).
    + simpl in H1. discriminate.
Qed.

Lemma forallb_is_Some {A B} (g : A → option B) (l : list A) :
  forallb (fun x => bool_decide (is_Some (g x))) l = true
  ↔ ∀ x, x ∈ l → is_Some (g x).
Proof.
  rewrite forallb_forall. split.
  - intros H x Hx. apply (bool_decide_eq_true_1 _), H. by apply list_elem_of_In.
  - intros H x Hx. apply bool_decide_eq_true_2, H. by apply list_elem_of_In.
Qed.

Lemma forallb_is_Some_false {A B} (g : A → option B) (l : list A) :
  forallb (fun x => bool_decide (is_Some (g x))) l = false
  → ∃ x, x ∈ l ∧ g x = None.
Proof.
  induction l as [|x l IH]; simpl; [done|].
  destruct (g x) as [b|] eqn:E.
  - rewrite bool_decide_eq_true_2 by done. simpl.
    intros (y & ? & ?)%IH. exists y. split; [by right|done].
  - intros _. exists x. split; [left|done].
Qed.

Lemma run_print_line {V B} (line : string) (rest : Exc (Env V) B) (env : Env V) :
  (print_line line ;; rest) env
  = rest (mkEnv (terms env) (console env ++ [line])).
Proof. reflexivity. Qed.

Lemma run_new_entry {V B} (key : string) (rest : Exc (Env V) B) (env : Env V) :
  (new_entry key ;; rest) env
  = rest (mkEnv (<[key := ∅]> (terms env)) (console env)).
Proof. reflexivity. Qed.

Lemma run_set_item {V B} (key k : string) (v : V) (rest : Exc (Env V) B)
    (env : Env V) (entry : gmap string V) :
  terms env !! key = Some entry →
  (set_item key k v ;; rest) env
  = rest (mkEnv (<[key := <[k := v]> entry]> (terms env)) (console env)).
Proof. intros H. rewrite exc_bind_run. unfold set_item. by rewrite H. Qed.

(** The start of a turn: print, make the entry, write its first item. *)
Lemma run_entry_start {V B} (line key k : string) (v : V) (rest : Exc (Env V) B)
    (env : Env V) :
  (print_line line ;; new_entry key ;; set_item key k v ;; rest) env
  = rest (mkEnv (<[key := {[k := v]}]> (terms env)) (console env ++ [line])).
Proof.
  rewrite run_print_line, run_new_entry.
  rewrite (run_set_item key k v rest _ ∅) by apply lookup_insert_eq.
  cbn [terms console]. by rewrite insert_insert_eq, insert_empty.
Qed.

Section Local.
Context {Attr : Type} (getattr : Match → string → option Attr).
Context (span_lemma_ : Span → string).

(** The loop of [decoder_mlflow_local.collect]. *)
Lemma local_turn (properties : list string) (results : list Match)
    (env : Env (Value Attr)) :
  if forallb (fun m => forallb (fun at_ => bool_decide (is_Some (getattr m at_)))
                         properties) results
  then (decoder_mlflow_local.collect Attr getattr span_lemma_ results properties env).1
       = inr tt
       ∧ terms (decoder_mlflow_local.collect Attr getattr span_lemma_
                  results properties env).2
         = foldl (fun t m =>
                    <[decoder_mlflow_local.key m :=
                        with_attrs VAttr (getattr m) properties
                          {["ableist_term" := VStr (match_text m)]}]> t)
             (terms env) results
  else (decoder_mlflow_local.collect Attr getattr span_lemma_ results properties env).1
       = inl AttributeError.
Proof.
  unfold decoder_mlflow_local.collect.
  apply (for_each_exc_fold terms
           (fun m t => <[decoder_mlflow_local.key m :=
                           with_attrs VAttr (getattr m) properties
                             {["ableist_term" := VStr (match_text m)]}]> t)
           (fun m => forallb (fun at_ => bool_decide (is_Some (getattr m at_)))
                       properties)).
  - intros m s Hok.
    pose proof (proj1 (forallb_is_Some (getattr m) properties) Hok) as Hall.
    destruct m as [token|span]; cbv beta iota; rewrite run_entry_start;
      (rewrite (properties_loop_ok VAttr (getattr _) _ properties _
                  {["ableist_term" := VStr _]} Hall)
        by (cbn [terms]; apply lookup_insert_eq));
      cbn [fst snd terms]; by rewrite insert_insert_eq.
  - intros m s Hok.
    pose proof (forallb_is_Some_false (getattr m) properties Hok) as Hex.
    destruct m as [token|span]; cbv beta iota; rewrite run_entry_start;
      (eapply (properties_loop_fail VAttr (getattr _)); [done|]);
      cbn [terms]; apply lookup_insert_eq.
Qed.

End Local.

Lemma forallb2_is_Some {A B C} (g : A → B → option C) (l : list A) (k : list B) :
  forallb (fun x => forallb (fun y => bool_decide (is_Some (g x y))) k) l = true
  ↔ ∀ x y, x ∈ l → y ∈ k → is_Some (g x y).
Proof.
  rewrite forallb_forall. split.
  - intros H x y Hx Hy. apply (forallb_is_Some (g x) k); [|done].
    apply H. by apply list_elem_of_In.
  - intros H x Hx. apply (forallb_is_Some (g x) k). intros y Hy.
    apply H; [|done]. by apply list_elem_of_In.
Qed.

Lemma forallb2_is_Some_false {A B C} (g : A → B → option C) (l : list A) (k : list B) :
  forallb (fun x => forallb (fun y => bool_decide (is_Some (g x y))) k) l = false
  ↔ ∃ x y, x ∈ l ∧ y ∈ k ∧ g x y = None.
Proof.
  split.
  - induction l as [|x l IH]; simpl; [done|].
    destruct (forallb _ k) eqn:E; simpl.
    + intros (x' & y & ? & ? & ?)%IH. exists x', y. split; [by right|done].
    + intros _. apply (forallb_is_Some_false (g x)) in E as (y & ? & ?).
      exists x, y. split; [left|done].
  - intros (x & y & Hx & Hy & Hnone).
    destruct (forallb _ l) eqn:E; [|done].
    pose proof (proj1 (forallb2_is_Some g l k) E x y Hx Hy) as [c Hc]. congruence.
Qed.




(** A request without the "properties" column: [KeyError]. *)
Example local_predict_missing_properties :
  (MLflowLanguageModel_predict string sample_getattr (fun _ => "")
     (fun text => MToken <$> matched_verbs {["move"]} (sample_nlp text))
     sample_read (mkModelInput (Some ["job.txt"]) None) []).1
  = inl KeyError.
Proof. reflexivity. Qed.

(** X14.  In the dictionary [predict] of [decoder_mlflow_local] returns, a
    key is present exactly when some match has it, and its entry is that of
    the last such match: every requested property with the value [getattr]
    gave, the text of the match under "ableist_term" unless that name was
    itself requested, and nothing else. *)
Theorem local_predict_entries {Attr : Type}
    (getattr : Match → string → option Attr) (span_lemma_ : Span → string)
    (func : string → list Match)
    (input_text : string) (properties : list string) (stdout : list string)
    (d : gmap string (gmap string (Value Attr)))
    (Hreturned :
       (decoder_mlflow_local.predict Attr getattr span_lemma_ func
          input_text properties stdout).1 = inr d)
    (k : string) :
  match last_with (fun m => bool_decide (decoder_mlflow_local.key m = k))
          (func input_text) with
  | None => d !! k = None
  | Some m =>
      ∃ entry,
        d !! k = Some entry
        ∧ ∀ name,
            entry !! name
            = if bool_decide (name ∈ properties) then VAttr <$> getattr m name
              else if bool_decide (name = "ableist_term")
                   then Some (VStr (match_text m))
                   else None
  end.
Proof.
  revert Hreturned. unfold decoder_mlflow_local.predict.
  pose proof (local_turn getattr span_lemma_ properties (func input_text)
                (mkEnv ∅ stdout)) as H.
  destruct (decoder_mlflow_local.collect Attr getattr span_lemma_
              (func input_text) properties (mkEnv ∅ stdout)) as [outcome env].
  destruct (forallb _ (func input_text)) eqn:E; simpl in H.
  - destruct H as [-> Hterms]. simpl. intros [= <-]. rewrite Hterms.
    rewrite (filed_lookup decoder_mlflow_local.key
               (fun m => with_attrs VAttr (getattr m) properties
                           {["ableist_term" := VStr (match_text m)]})).
    simpl. destruct (last_with _ _) as [m|] eqn:EL; [|apply lookup_empty].
    eexists. split; [done|]. intros name.
    apply last_with_elem in EL as [Hm _].
    rewrite with_attrs_lookup.
    + destruct (bool_decide (name ∈ properties)); [done|].
      destruct (decide (name = "ableist_term")) as [->|Hne].
      * by rewrite lookup_singleton_eq.
      * rewrite bool_decide_eq_false_2 by done. by apply lookup_singleton_ne.
    + intros at_ Hat. by apply (proj1 (forallb2_is_Some getattr _ _) E).
  - subst outcome. simpl. discriminate.
Qed.

Lemma local_predict_entries_witness :
  ∃ entry : gmap string (Value string),
    ({[ "0" := {[ "ableist_term" := VStr "move"; "lemma_" := VAttr "move" ]} ]}
       : gmap string (gmap string (Value string))) !! "0" = Some entry
    ∧ ∀ name,
        entry !! name
        = if bool_decide (name ∈ ["lemma_"])
          then VAttr <$> sample_getattr
                 (MToken (mkToken 0 (mkTokenC "move" true "move" "VERB" "ROOT" 0))) name
          else if bool_decide (name = "ableist_term")
               then Some (VStr "move")
               else None.
Proof.
  refine (local_predict_entries sample_getattr (fun _ => "")
            (fun text => MToken <$> matched_verbs {["move"]} (sample_nlp text))
            "move them" ["lemma_"] []
            {[ "0" := {[ "ableist_term" := VStr "move"; "lemma_" := VAttr "move" ]} ]}
            _ "0").
  vm_compute. reflexivity.
Defined.

Section Registry.
Context {Attr : Type} (getattr : Match → string → option Attr).
Context (span_lemma_ : Span → string).

(** The loop of [decoder_mlflow_registry.collect]. *)
Lemma registry_turn (properties : list string) (results : list Match)
    (env : Env (Value Attr)) :
  if forallb (fun m => forallb (fun at_ => bool_decide (is_Some (getattr m at_)))
                         properties) results
  then (decoder_mlflow_registry.collect Attr getattr span_lemma_
          results properties env).1 = inr tt
       ∧ terms (decoder_mlflow_registry.collect Attr getattr span_lemma_
                  results properties env).2
         = foldl (fun t m =>
                    <[str_nat (decoder_mlflow_registry.position m) :=
                        with_attrs VAttr (getattr m) properties
                          (<["end" := VStr (str_nat (decoder_mlflow_registry.position_end m))]>
                             {["ableist_term" := VStr (match_text m)]})]> t)
             (terms env) results
  else (decoder_mlflow_registry.collect Attr getattr span_lemma_
          results properties env).1 = inl AttributeError.
Proof.
  unfold decoder_mlflow_registry.collect.
  apply (for_each_exc_fold terms
           (fun m t =>
              <[str_nat (decoder_mlflow_registry.position m) :=
                  with_attrs VAttr (getattr m) properties
                    (<["end" := VStr (str_nat (decoder_mlflow_registry.position_end m))]>
                       {["ableist_term" := VStr (match_text m)]})]> t)
           (fun m => forallb (fun at_ => bool_decide (is_Some (getattr m at_)))
                       properties)).
  - intros m s Hok.
    pose proof (proj1 (forallb_is_Some (getattr m) properties) Hok) as Hall.
    destruct m as [token|span]; cbv beta iota; rewrite run_entry_start;
      (rewrite (run_set_item _ "end" _ _ _ {["ableist_term" := VStr _]})
        by (cbn [terms]; apply lookup_insert_eq));
      (rewrite (properties_loop_ok VAttr (getattr _) _ properties _
                  (<["end" := VStr _]> {["ableist_term" := VStr _]}) Hall)
        by (cbn [terms]; apply lookup_insert_eq));
      cbn [fst snd terms]; by rewrite !insert_insert_eq.
  - intros m s Hok.
    pose proof (forallb_is_Some_false (getattr m) properties Hok) as Hex.
    destruct m as [token|span]; cbv beta iota; rewrite run_entry_start;
      (rewrite (run_set_item _ "end" _ _ _ {["ableist_term" := VStr _]})
        by (cbn [terms]; apply lookup_insert_eq));
      (eapply (properties_loop_fail VAttr (getattr _)); [done|]);
      cbn [terms]; apply lookup_insert_eq.
Qed.

End Registry.

(** X15.  [predict] of [decoder_mlflow_registry] files every match under
    the decimal of the position where it begins, so that a single token and
    a phrase beginning at that token share one entry.  The entry found
    under a position is that of the last match beginning there: the
    requested properties, the decimal of its end under "end" (for a token
    its own position), its text under "ableist_term", unless these two
    names were requested themselves.  No other keys exist. *)
Theorem registry_predict_entries {Attr : Type}
    (getattr : Match → string → option Attr) (span_lemma_ : Span → string)
    (func : string → list Match)
    (input_text : string) (properties : list string) (stdout : list string)
    (d : gmap string (gmap string (Value Attr)))
    (Hreturned :
       (decoder_mlflow_registry.predict Attr getattr span_lemma_ func
          input_text properties stdout).1 = inr d) :
  (∀ p : nat,
     match last_with
             (fun m => bool_decide (decoder_mlflow_registry.position m = p))
             (func input_text) with
     | None => d !! str_nat p = None
     | Some m =>
         ∃ entry,
           d !! str_nat p = Some entry
           ∧ ∀ name,
               entry !! name
               = if bool_decide (name ∈ properties) then VAttr <$> getattr m name
                 else if bool_decide (name = "end")
                      then Some (VStr (str_nat (decoder_mlflow_registry.position_end m)))
                      else if bool_decide (name = "ableist_term")
                           then Some (VStr (match_text m))
                           else None
     end)
  ∧ (∀ k : string, (∀ p : nat, k ≠ str_nat p) → d !! k = None).
Proof.
  revert Hreturned. unfold decoder_mlflow_registry.predict.
  pose proof (registry_turn getattr span_lemma_ properties (func input_text)
                (mkEnv ∅ stdout)) as H.
  destruct (decoder_mlflow_registry.collect Attr getattr span_lemma_
              (func input_text) properties (mkEnv ∅ stdout)) as [outcome env].
  destruct (forallb _ (func input_text)) eqn:E; simpl in H;
    [|subst outcome; simpl; discriminate].
  destruct H as [-> Hterms]. simpl. intros [= <-]. rewrite Hterms.
  assert (Hlook : ∀ k,
    foldl (fun t m =>
             <[str_nat (decoder_mlflow_registry.position m) :=
                 with_attrs VAttr (getattr m) properties
                   (<["end" := VStr (str_nat (decoder_mlflow_registry.position_end m))]>
                      {["ableist_term" := VStr (match_text m)]})]> t)
      (∅ : gmap string (gmap string (Value Attr))) (func input_text) !! k
    = match last_with
              (fun m => bool_decide (str_nat (decoder_mlflow_registry.position m) = k))
              (func input_text) with
      | Some m =>
          Some (with_attrs VAttr (getattr m) properties
                  (<["end" := VStr (str_nat (decoder_mlflow_registry.position_end m))]>
                     {["ableist_term" := VStr (match_text m)]}))
      | None => None
      end).
  { intros k.
    rewrite (filed_lookup (fun m => str_nat (decoder_mlflow_registry.position m))
               (fun m => with_attrs VAttr (getattr m) properties
                           (<["end" := VStr (str_nat (decoder_mlflow_registry.position_end m))]>
                              {["ableist_term" := VStr (match_text m)]}))).
    destruct (last_with _ _); [done|apply lookup_empty]. }
  split.
  - intros p. rewrite Hlook.
    replace (last_with
               (fun m => bool_decide (str_nat (decoder_mlflow_registry.position m) = str_nat p))
               (func input_text))
      with (last_with
              (fun m => bool_decide (decoder_mlflow_registry.position m = p))
              (func input_text)).
    + destruct (last_with _ _) as [m|] eqn:EL; [|done].
      eexists. split; [done|]. intros name.
      rewrite with_attrs_lookup
        by (intros at_ Hat; apply (proj1 (forallb2_is_Some getattr _ _) E);
            [by apply last_with_elem in EL as [? _]|done]).
      destruct (bool_decide (name ∈ properties)); [done|].
      destruct (decide (name = "end")) as [->|Hne].
      * by rewrite lookup_insert_eq.
      * rewrite lookup_insert_ne, (bool_decide_eq_false_2 (name = "end")) by done.
        destruct (decide (name = "ableist_term")) as [->|Hne'].
        -- by rewrite lookup_singleton_eq.
        -- rewrite bool_decide_eq_false_2 by done. by apply lookup_singleton_ne.
    + unfold last_with. f_equal. apply filter_ext. intros m.
      apply bool_decide_ext. split; [by intros ->|apply str_nat_inj].
  - intros k Hk. rewrite Hlook.
    destruct (last_with _ _) as [m|] eqn:EL; [|done].
    apply last_with_elem in EL as [_ Hm]. apply bool_decide_eq_true in Hm.
    by destruct (Hk (decoder_mlflow_registry.position m)).
Qed.

(** A verb reported alone at position 4 and the phrase 4:7 that begins with
    it: the dictionary keeps one entry, that of the phrase. *)
Lemma registry_predict_entries_witness :
  let results :=
    [ MToken (mkToken 4 (mkTokenC "move" true "move" "VERB" "xcomp" 2));
      MSpan (mkSpan test_doc 4 7) ] in
  ∃ d : gmap string (gmap string (Value string)),
    (decoder_mlflow_registry.predict string sample_getattr (fun _ => "")
       (fun _ => results) "" [] []).1 = inr d
    ∧ size d = 1
    ∧ ∃ entry,
        d !! str_nat 4 = Some entry
        ∧ ∀ name,
            entry !! name
            = if bool_decide (name ∈ ([] : list string))
              then VAttr <$> sample_getattr (MSpan (mkSpan test_doc 4 7)) name
              else if bool_decide (name = "end") then Some (VStr (str_nat 7))
                   else if bool_decide (name = "ableist_term")
                        then Some (VStr "move your hands")
                        else None.
Proof.
  intros results.
  exists {[ "4" := {[ "ableist_term" := VStr "move your hands"; "end" := VStr "7" ]} ]}.
  assert (Hrun :
    (decoder_mlflow_registry.predict string sample_getattr (fun _ => "")
       (fun _ => results) "" [] []).1
    = inr {[ "4" := {[ "ableist_term" := VStr "move your hands";
                       "end" := VStr "7" ]} ]})
    by (vm_compute; reflexivity).
  split; [exact Hrun|]. split; [by vm_compute|].
  exact (proj1 (registry_predict_entries sample_getattr (fun _ => "")
                  (fun _ => results) "" [] [] _ Hrun) 4).
Defined.

(** *** The detector's wrapper *)

Lemma for_each_exc_ext {S A} (l : list A) (body1 body2 : A → Exc S unit) (s : S) :
  (∀ x s', body1 x s' = body2 x s') →
  for_each_exc l body1 s = for_each_exc l body2 s.
Proof.
  intros H. revert s. induction l as [|x l IH]; intros s; [done|].
  rewrite !for_each_exc_cons, H. destruct (body2 x s) as [[e|u] s']; [done|apply IH].
Qed.

(** A loop that only prints never raises and leaves the dictionary alone. *)
Lemma for_each_exc_prints {V A} (l : list A) (body : A → Exc (Env V) unit)
    (env : Env V) :
  (∀ x env', ∃ line,
     body x env' = (inr tt, mkEnv (terms env') (console env' ++ [line]))) →
  (for_each_exc l body env).1 = inr tt
  ∧ terms (for_each_exc l body env).2 = terms env.
Proof.
  intros H. revert env. induction l as [|x l IH]; intros env; [done|].
  rewrite for_each_exc_cons. destruct (H x env) as [line ->].
  apply (IH (mkEnv (terms env) (console env ++ [line]))).
Qed.

Section Detector.
Context {Term Obj : Type}.
Context (str_term : Term → string) (str_obj : Obj → string).
Context (lemma : Term → string) (start end_ : Term → nat).
Context (alternative_verbs example : Term → string).
Context (getattr getattr_data : Term → string → option Obj).

Lemma detector_turn (properties : list string) (result : list Term)
    (env : Env string) :
  if forallb (fun t => forallb (fun p => bool_decide
                          (is_Some (first_of (getattr t p) (getattr_data t p))))
                         properties) result
  then (detector_mlflow_local.collect Term Obj str_term str_obj lemma start end_
          alternative_verbs example getattr getattr_data result properties env).1
       = inr tt
       ∧ terms (detector_mlflow_local.collect Term Obj str_term str_obj lemma
                  start end_ alternative_verbs example getattr getattr_data
                  result properties env).2
         = foldl (fun d t =>
                    <[str_nat (start t) :=
                        with_attrs str_obj
                          (fun p => first_of (getattr t p) (getattr_data t p))
                          properties ∅]> d)
             (terms env) result
  else (detector_mlflow_local.collect Term Obj str_term str_obj lemma start end_
          alternative_verbs example getattr getattr_data result properties env).1
       = inl AttributeError.
Proof.
  unfold detector_mlflow_local.collect. rewrite run_print_line.
  destruct result as [|t0 result0] eqn:Eres; [done|]. rewrite <- Eres.
  rewrite (bool_decide_eq_true_2 (0 < length result))
    by (rewrite Eres; simpl; lia).
  rewrite exc_bind_run.
  destruct (for_each_exc_prints
              (imap (fun n ableist_term => (n, ableist_term)) result)
              (fun '(n, ableist_term) =>
                 print_line ("Match #" +:+ str_nat (n + 1) +:+ nl
                   +:+ "PHRASE: " +:+ str_term ableist_term
                   +:+ " | LEMMA: " +:+ lemma ableist_term
                   +:+ " | POSITION: " +:+ str_nat (start ableist_term)
                   +:+ ":" +:+ str_nat (end_ ableist_term)
                   +:+ " | ALTERNATIVES: " +:+ alternative_verbs ableist_term
                   +:+ " | EXAMPLE: " +:+ example ableist_term +:+ nl))
              (mkEnv (terms env)
                 (console env ++ ["Found " +:+ str_nat (length result)
                    +:+ " instances of ableist language." +:+ nl])))
    as [Hr1 Hr2].
  { intros [n t] env'. by eexists. }
  unfold detector_mlflow_local.report.
  destruct (for_each_exc _ _ _) as [[e|[]] env1] eqn:Erep; [discriminate|].
  cbn [fst snd terms] in Hr2. rewrite <- Hr2. clear Erep Hr1 Hr2 Eres.
  apply (for_each_exc_fold terms
           (fun t d => <[str_nat (start t) :=
                           with_attrs str_obj
                             (fun p => first_of (getattr t p) (getattr_data t p))
                             properties ∅]> d)
           (fun t => forallb (fun p => bool_decide
                        (is_Some (first_of (getattr t p) (getattr_data t p))))
                       properties)).
  - intros t s Hok.
    pose proof (proj1 (forallb_is_Some
                  (fun p => first_of (getattr t p) (getattr_data t p)) properties) Hok)
      as Hall.
    rewrite run_new_entry.
    destruct properties as [|p0 ps] eqn:Eprops; [by cbn|]. rewrite <- Eprops in *.
    rewrite (bool_decide_eq_true_2 (0 < length properties))
      by (rewrite Eprops; simpl; lia).
    rewrite (for_each_exc_ext properties _
               (fun p => attribute (first_of (getattr t p) (getattr_data t p))
                         ≫= fun v => set_item (str_nat (start t)) p (str_obj v))).
    + rewrite (properties_loop_ok str_obj _ _ properties _ ∅ Hall)
        by (cbn [terms]; apply lookup_insert_eq).
      cbn [fst snd terms]. by rewrite insert_insert_eq.
    + intros p s'. rewrite exc_bind_run. by destruct (getattr t p).
  - intros t s Hok.
    pose proof (forallb_is_Some_false
                  (fun p => first_of (getattr t p) (getattr_data t p)) properties Hok)
      as Hex.
    rewrite run_new_entry.
    destruct properties as [|p0 ps] eqn:Eprops.
    { destruct Hex as (p & ?%elem_of_nil & _). done. }
    rewrite <- Eprops in *.
    rewrite (bool_decide_eq_true_2 (0 < length properties))
      by (rewrite Eprops; simpl; lia).
    rewrite (for_each_exc_ext properties _
               (fun p => attribute (first_of (getattr t p) (getattr_data t p))
                         ≫= fun v => set_item (str_nat (start t)) p (str_obj v))).
    + eapply (properties_loop_fail str_obj); [done|].
      cbn [terms]. apply lookup_insert_eq.
    + intros p s'. rewrite exc_bind_run. by destruct (getattr t p).
Qed.

End Detector.

(** X16.  [predict] of [detector_mlflow_local] looks a requested property up
    on the match first and on its data next, and raises [AttributeError]
    only when both lack it.  When it returns, the entry under the decimal of
    a start position is that of the last match starting there and holds the
    requested properties as strings, an attribute of the match hiding one of
    its data, and nothing else; there is no other key. *)
Theorem detector_predict_entries {Term Obj : Type}
    (str_term : Term → string) (str_obj : Obj → string)
    (lemma : Term → string) (start end_ : Term → nat)
    (alternative_verbs example : Term → string)
    (getattr getattr_data : Term → string → option Obj)
    (func : string → list Term)
    (input_text : string) (properties : list string) (stdout : list string) :
  let out :=
    detector_mlflow_local.predict Term Obj str_term str_obj lemma start end_
      alternative_verbs example getattr getattr_data func
      input_text properties stdout in
  ((∀ t p, t ∈ func input_text → p ∈ properties →
           is_Some (getattr t p) ∨ is_Some (getattr_data t p))
   ↔ ∃ d, out.1 = inr d)
  ∧ ((∃ t p, t ∈ func input_text ∧ p ∈ properties
             ∧ getattr t p = None ∧ getattr_data t p = None)
     ↔ out.1 = inl AttributeError)
  ∧ ∀ d, out.1 = inr d →
      (∀ n : nat,
         match last_with (fun t => bool_decide (start t = n)) (func input_text) with
         | None => d !! str_nat n = None
         | Some t =>
             ∃ entry,
               d !! str_nat n = Some entry
               ∧ ∀ name,
                   entry !! name
                   = if bool_decide (name ∈ properties)
                     then str_obj <$> first_of (getattr t name) (getattr_data t name)
                     else None
         end)
      ∧ (∀ k : string, (∀ n : nat, k ≠ str_nat n) → d !! k = None).
Proof.
  intros out. unfold out, detector_mlflow_local.predict.
  pose proof (detector_turn str_term str_obj lemma start end_ alternative_verbs
                example getattr getattr_data properties (func input_text)
                (mkEnv ∅ stdout)) as H.
  destruct (detector_mlflow_local.collect _ _ _ _ _ _ _ _ _ _ _ _ _ _)
    as [outcome env].
  assert (Hsome : ∀ t p,
    is_Some (first_of (getattr t p) (getattr_data t p))
    ↔ is_Some (getattr t p) ∨ is_Some (getattr_data t p)).
  { intros t p. destruct (getattr t p) as [v|]; simpl.
    - split; [by left|by eexists].
    - split; [by right|]. by intros [[? [=]]|?]. }
  assert (Hnone : ∀ t p,
    first_of (getattr t p) (getattr_data t p) = None
    ↔ getattr t p = None ∧ getattr_data t p = None).
  { intros t p. destruct (getattr t p) as [v|]; simpl; [|tauto].
    split; [done|by intros [[=] _]]. }
  destruct (forallb _ (func input_text)) eqn:E; simpl in H.
  - destruct H as [-> Hterms]. simpl.
    pose proof (proj1 (forallb2_is_Some
                  (fun t p => first_of (getattr t p) (getattr_data t p)) _ _) E)
      as Hall.
    split; [split; [by eexists|]|].
    { intros _ t p Ht Hp. apply Hsome. by apply Hall. }
    split; [split; [|done]|].
    { intros (t & p & Ht & Hp & Hn%Hnone). destruct (Hall t p Ht Hp) as [v Hv].
      congruence. }
    intros d [= <-]. rewrite Hterms.
    assert (Hlook : ∀ k,
      foldl (fun d t =>
               <[str_nat (start t) :=
                   with_attrs str_obj
                     (fun p => first_of (getattr t p) (getattr_data t p))
                     properties ∅]> d)
        (∅ : gmap string (gmap string string)) (func input_text) !! k
      = match last_with (fun t => bool_decide (str_nat (start t) = k))
                (func input_text) with
        | Some t =>
            Some (with_attrs str_obj
                    (fun p => first_of (getattr t p) (getattr_data t p))
                    properties ∅)
        | None => None
        end).
    { intros k.
      rewrite (filed_lookup (fun t => str_nat (start t))
                 (fun t => with_attrs str_obj
                             (fun p => first_of (getattr t p) (getattr_data t p))
                             properties ∅)).
      destruct (last_with _ _); [done|apply lookup_empty]. }
    split.
    + intros n. rewrite Hlook.
      replace (last_with (fun t => bool_decide (str_nat (start t) = str_nat n))
                 (func input_text))
        with (last_with (fun t => bool_decide (start t = n)) (func input_text)).
      * destruct (last_with _ _) as [t|] eqn:EL; [|done].
        eexists. split; [done|]. intros name.
        rewrite with_attrs_lookup.
        -- destruct (bool_decide (name ∈ properties)); [done|apply lookup_empty].
        -- intros p Hp. apply Hall; [|done]. by apply last_with_elem in EL as [? _].
      * unfold last_with. f_equal. apply filter_ext. intros t.
        apply bool_decide_ext. split; [by intros ->|apply str_nat_inj].
    + intros k Hk. rewrite Hlook.
      destruct (last_with _ _) as [t|] eqn:EL; [|done].
      apply last_with_elem in EL as [_ Ht]. apply bool_decide_eq_true in Ht.
      by destruct (Hk (start t)).
  - subst outcome. simpl.
    pose proof (proj1 (forallb2_is_Some_false
                  (fun t p => first_of (getattr t p) (getattr_data t p)) _ _) E)
      as (t & p & Ht & Hp & Hn).
    split; [split|].
    + intros Hall. destruct (proj2 (Hsome t p) (Hall t p Ht Hp)) as [v Hv]. congruence.
    + by intros [d ?].
    + split; [|done]. split; [done|]. intros _. exists t, p. by apply Hnone in Hn.
Qed.

Lemma detector_predict_entries_witness :
  ∃ d : gmap string (gmap string string),
    (detector_mlflow_local.predict nat string (fun _ => "") (fun v => v)
       (fun _ => "") (fun t => t) (fun t => t) (fun _ => "") (fun _ => "")
       sample_term_getattr sample_data_getattr (fun _ => [4; 9])
       "" ["start"; "example"] []).1 = inr d.
Proof.
  apply (proj1 (proj1 (detector_predict_entries (fun _ => "") (fun v => v)
                  (fun _ => "") (fun t => t) (fun t => t) (fun _ => "") (fun _ => "")
                  sample_term_getattr sample_data_getattr (fun _ => [4; 9])
                  "" ["start"; "example"] []))).
  intros t p _ Hp. apply elem_of_cons in Hp as [->|Hp]; [left; by eexists|].
  apply list_elem_of_singleton in Hp as ->. right. by eexists.
Defined.

(** *** Waiting for a model version *)

Lemma for_each_break_cons {S A} (x : A) (l : list A) (body : A → Exc S Flow) (s : S) :
  for_each_break (x :: l) body s
  = match body x s with
    | (inl e, s') => (inl e, s')
    | (inr Break, s') => (inr tt, s')
    | (inr Continue, s') => for_each_break l body s'
    end.
Proof.
  cbn [for_each_break]. rewrite exc_bind_run.
  by destruct (body x s) as [[e|[]] s'].
Qed.

Section Waiting.
Context (status_at : nat → option decoder_mlflow_registry.ModelVersionStatus).
Context (transition_accepted : string → nat → string → bool).
Context (model_name : string) (model_version : nat) (stage : string).

Local Abbreviation poll_turn :=
  (decoder_mlflow_registry.poll_turn status_at transition_accepted
     model_name model_version stage).

Lemma poll_turn_waiting (w : decoder_mlflow_registry.Tracking)
    (status : decoder_mlflow_registry.ModelVersionStatus) :
  status_at (decoder_mlflow_registry.requests w) = Some status →
  status ≠ decoder_mlflow_registry.READY →
  ∃ w', poll_turn w = (inr Continue, w')
        ∧ decoder_mlflow_registry.requests w' = S (decoder_mlflow_registry.requests w)
        ∧ decoder_mlflow_registry.slept w' = decoder_mlflow_registry.slept w + 1
        ∧ decoder_mlflow_registry.transitions w' = decoder_mlflow_registry.transitions w.
Proof.
  intros Hs Hne. unfold decoder_mlflow_registry.poll_turn. rewrite exc_bind_run.
  unfold decoder_mlflow_registry.get_model_version. rewrite Hs.
  rewrite exc_bind_run. cbn [decoder_mlflow_registry.print_status].
  rewrite bool_decide_eq_false_2 by done. by eexists.
Qed.

Lemma poll_turn_ready (w : decoder_mlflow_registry.Tracking) :
  status_at (decoder_mlflow_registry.requests w) = Some decoder_mlflow_registry.READY →
  ∃ w', poll_turn w
        = (if transition_accepted model_name model_version stage
           then inr Break else inl MlflowException, w')
        ∧ decoder_mlflow_registry.requests w' = S (decoder_mlflow_registry.requests w)
        ∧ decoder_mlflow_registry.slept w' = decoder_mlflow_registry.slept w
        ∧ decoder_mlflow_registry.transitions w'
          = decoder_mlflow_registry.transitions w ++ [(model_name, model_version, stage)].
Proof.
  intros Hs. unfold decoder_mlflow_registry.poll_turn. rewrite exc_bind_run.
  unfold decoder_mlflow_registry.get_model_version. rewrite Hs.
  rewrite exc_bind_run. cbn [decoder_mlflow_registry.print_status].
  rewrite bool_decide_eq_true_2 by done. rewrite exc_bind_run.
  unfold decoder_mlflow_registry.transition_model_version_stage.
  cbn [decoder_mlflow_registry.requests decoder_mlflow_registry.transitions
       decoder_mlflow_registry.slept decoder_mlflow_registry.printed].
  destruct (transition_accepted model_name model_version stage); by eexists.
Qed.

Lemma poll_turn_raises (w : decoder_mlflow_registry.Tracking) :
  status_at (decoder_mlflow_registry.requests w) = None →
  ∃ w', poll_turn w = (inl MlflowException, w')
        ∧ decoder_mlflow_registry.requests w' = S (decoder_mlflow_registry.requests w)
        ∧ decoder_mlflow_registry.slept w' = decoder_mlflow_registry.slept w
        ∧ decoder_mlflow_registry.transitions w' = decoder_mlflow_registry.transitions w.
Proof.
  intros Hs. unfold decoder_mlflow_registry.poll_turn. rewrite exc_bind_run.
  unfold decoder_mlflow_registry.get_model_version. rewrite Hs. by eexists.
Qed.

(** The loop over any number of turns, after [k] turns of waiting. *)
Lemma poll_loop (n a k : nat) (w : decoder_mlflow_registry.Tracking) :
  k ≤ n →
  (∀ j, j < k →
        ∃ status, status_at (decoder_mlflow_registry.requests w + j) = Some status
                  ∧ status ≠ decoder_mlflow_registry.READY) →
  let run := for_each_break (seq a n) (fun _ => poll_turn) w in
  (k = n →
   run.1 = inr tt
   ∧ decoder_mlflow_registry.requests run.2 = decoder_mlflow_registry.requests w + k
   ∧ decoder_mlflow_registry.slept run.2 = decoder_mlflow_registry.slept w + k
   ∧ decoder_mlflow_registry.transitions run.2 = decoder_mlflow_registry.transitions w)
  ∧ (k < n →
     status_at (decoder_mlflow_registry.requests w + k)
     = Some decoder_mlflow_registry.READY →
     run.1 = (if transition_accepted model_name model_version stage
              then inr tt else inl MlflowException)
     ∧ decoder_mlflow_registry.requests run.2
       = decoder_mlflow_registry.requests w + k + 1
     ∧ decoder_mlflow_registry.slept run.2 = decoder_mlflow_registry.slept w + k
     ∧ decoder_mlflow_registry.transitions run.2
       = decoder_mlflow_registry.transitions w ++ [(model_name, model_version, stage)])
  ∧ (k < n →
     status_at (decoder_mlflow_registry.requests w + k) = None →
     run.1 = inl MlflowException
     ∧ decoder_mlflow_registry.requests run.2
       = decoder_mlflow_registry.requests w + k + 1
     ∧ decoder_mlflow_registry.slept run.2 = decoder_mlflow_registry.slept w + k
     ∧ decoder_mlflow_registry.transitions run.2 = decoder_mlflow_registry.transitions w).
Proof.
  revert n a w. induction k as [|k IH]; intros n a w Hle Hwait run.
  - destruct n as [|n].
    + split; [|split; intros; lia]. intros _. unfold run. simpl.
      repeat split; lia.
    + split; [intros; lia|]. unfold run. cbn [seq]. rewrite for_each_break_cons.
      rewrite !Nat.add_0_r. split; intros _ Hs.
      * destruct (poll_turn_ready w Hs) as (w' & -> & ? & ? & ?).
        destruct (transition_accepted model_name model_version stage); simpl;
          repeat split; (done || lia).
      * destruct (poll_turn_raises w Hs) as (w' & -> & ? & ? & ?). simpl.
        repeat split; (done || lia).
  - destruct n as [|n]; [lia|].
    destruct (Hwait 0) as (status & Hs & Hne); [lia|]. rewrite Nat.add_0_r in Hs.
    destruct (poll_turn_waiting w status Hs Hne) as (w' & Hturn & Hreq & Hslept & Htrans).
    unfold run. cbn [seq]. rewrite for_each_break_cons, Hturn.
    destruct (IH n (S a) w') as (H1 & H2 & H3); [lia| |].
    { intros j Hj. destruct (Hwait (S j)) as (st & Hst & Hn); [lia|].
      exists st. split; [|done]. rewrite Hreq. rewrite <- Hst. f_equal. lia. }
    rewrite Hreq, Hslept, Htrans in H1, H2, H3.
    replace (S (decoder_mlflow_registry.requests w) + k)
      with (decoder_mlflow_registry.requests w + S k) in H2, H3 by lia.
    split; [|split].
    + intros Hk. destruct H1 as (? & ? & ? & ?); [lia|]. repeat split; (done || lia).
    + intros Hk Hs'. destruct (H2 ltac:(lia) Hs') as (? & ? & ? & ?).
      repeat split; (done || lia).
    + intros Hk Hs'. destruct (H3 ltac:(lia) Hs') as (? & ? & ? & ?).
      repeat split; (done || lia).
Qed.

End Waiting.

(** X17.  [wait_model_transition] asks for the model version at most ten
    times and sleeps a second after every answer that is not READY.  On the
    first READY it asks for the stage transition once and stops; if the ten
    answers pass without READY it returns normally, having asked for no
    transition; if a request raises, the exception leaves the function and
    no transition is asked for. *)
Theorem wait_model_transition_outcome
    (status_at : nat → option decoder_mlflow_registry.ModelVersionStatus)
    (transition_accepted : string → nat → string → bool)
    (model_name : string) (model_version : nat) (stage : string)
    (w : decoder_mlflow_registry.Tracking) (k : nat)
    (Hk : k ≤ 10)
    (Hwaiting : ∀ j, j < k →
       ∃ status, status_at (decoder_mlflow_registry.requests w + j) = Some status
                 ∧ status ≠ decoder_mlflow_registry.READY) :
  let run :=
    decoder_mlflow_registry.wait_model_transition status_at transition_accepted
      model_name model_version stage w in
  (k = 10 →
   run.1 = inr tt
   ∧ decoder_mlflow_registry.requests run.2 = decoder_mlflow_registry.requests w + 10
   ∧ decoder_mlflow_registry.slept run.2 = decoder_mlflow_registry.slept w + 10
   ∧ decoder_mlflow_registry.transitions run.2 = decoder_mlflow_registry.transitions w)
  ∧ (k < 10 →
     status_at (decoder_mlflow_registry.requests w + k)
     = Some decoder_mlflow_registry.READY →
     run.1 = (if transition_accepted model_name model_version stage
              then inr tt else inl MlflowException)
     ∧ decoder_mlflow_registry.requests run.2
       = decoder_mlflow_registry.requests w + k + 1
     ∧ decoder_mlflow_registry.slept run.2 = decoder_mlflow_registry.slept w + k
     ∧ decoder_mlflow_registry.transitions run.2
       = decoder_mlflow_registry.transitions w ++ [(model_name, model_version, stage)])
  ∧ (k < 10 →
     status_at (decoder_mlflow_registry.requests w + k) = None →
     run.1 = inl MlflowException
     ∧ decoder_mlflow_registry.requests run.2
       = decoder_mlflow_registry.requests w + k + 1
     ∧ decoder_mlflow_registry.slept run.2 = decoder_mlflow_registry.slept w + k
     ∧ decoder_mlflow_registry.transitions run.2 = decoder_mlflow_registry.transitions w).
Proof.
  intros run.
  pose proof (poll_loop status_at transition_accepted model_name model_version stage
                10 0 k w Hk Hwaiting) as (H1 & H2 & H3).
  split; [|split].
  - intros ->. apply H1. done.
  - apply H2.
  - apply H3.
Qed.

Lemma wait_model_transition_outcome_witness :
  let status_at := fun n =>
    if n <? 2 then Some decoder_mlflow_registry.PENDING_REGISTRATION
    else Some decoder_mlflow_registry.READY in
  let run :=
    decoder_mlflow_registry.wait_model_transition status_at (fun _ _ _ => true)
      "analyzer_model" 3 "Staging"
      (decoder_mlflow_registry.mkTracking 0 [] 0 []) in
  run.1 = inr tt
  ∧ decoder_mlflow_registry.requests run.2 = 0 + 2 + 1
  ∧ decoder_mlflow_registry.slept run.2 = 0 + 2
  ∧ decoder_mlflow_registry.transitions run.2 = [] ++ [("analyzer_model", 3, "Staging")].
Proof.
  intros status_at run.
  apply (proj1 (proj2 (wait_model_transition_outcome status_at (fun _ _ _ => true)
                  "analyzer_model" 3 "Staging"
                  (decoder_mlflow_registry.mkTracking 0 [] 0 []) 2
                  ltac:(lia)
                  ltac:(intros [|[|j]] Hj; [by eexists|by eexists|lia]))));
    [lia|reflexivity].
Defined.

(** ** Word lists and phrase boundaries *)

Lemma list_filter_sublist_impl {A} (c1 c2 : A → bool) (l : list A) :
  (∀ x, c1 x = true → c2 x = true) →
  sublist (List.filter c1 l) (List.filter c2 l).
Proof.
  intros H. induction l as [|x l IH]; simpl; [constructor|].
  destruct (c1 x) eqn:E1.
  - rewrite (H x E1). by constructor.
  - destruct (c2 x); [by constructor|done].
Qed.

(** X18.  Growing a word list never removes a match: the standalone matches
    for a list are a subsequence of those for a larger list, and so are the
    phrases of the dependent matcher when either of its lists grows.  With
    an empty list a matcher finds nothing. *)
Theorem matches_grow_with_word_lists (doc : Doc)
    (verbs verbs' dverbs dverbs' dobjs dobjs' : gset string)
    (Hverbs : verbs ⊆ verbs') (Hdverbs : dverbs ⊆ dverbs') (Hdobjs : dobjs ⊆ dobjs') :
  sublist (matched_verbs verbs doc) (matched_verbs verbs' doc)
  ∧ sublist (match_dependent_ableist_verbs doc dverbs dobjs)
            (match_dependent_ableist_verbs doc dverbs' dobjs')
  ∧ matched_verbs ∅ doc = []
  ∧ match_dependent_ableist_verbs doc ∅ dobjs = []
  ∧ match_dependent_ableist_verbs doc dverbs ∅ = [].
Proof.
  split; [|split; [|split; [|split]]].
  - unfold matched_verbs. apply list_filter_sublist_impl. intros token.
    rewrite !bool_decide_eq_true. apply Hverbs.
  - rewrite !match_dependent_eq. apply fmap_sublist, list_filter_sublist_impl.
    intros token. unfold qualifies. rewrite !andb_true_iff, !bool_decide_eq_true.
    intros [[? ?] [? ?]]. repeat split; try done; [by apply Hdobjs|by apply Hdverbs].
  - unfold matched_verbs. apply list_filter_none. intros token _.
    apply bool_decide_eq_false. apply not_elem_of_empty.
  - rewrite match_dependent_eq. rewrite list_filter_none; [done|].
    intros token _. unfold qualifies.
    rewrite (bool_decide_eq_false_2 (lemma_ (head doc token) ∈ (∅ : gset string)))
      by apply not_elem_of_empty.
    by rewrite !andb_false_r.
  - rewrite match_dependent_eq. rewrite list_filter_none; [done|].
    intros token _. unfold qualifies.
    rewrite (bool_decide_eq_false_2 (lemma_ token ∈ (∅ : gset string)))
      by apply not_elem_of_empty.
    by rewrite andb_false_r.
Qed.

Lemma matches_grow_with_word_lists_witness :
  sublist (matched_verbs {["lift"]} two_clause_doc)
          (matched_verbs {["lift"; "move"]} two_clause_doc)
  ∧ sublist (match_dependent_ableist_verbs two_clause_doc {["move"]} {["hand"]})
            (match_dependent_ableist_verbs two_clause_doc
               {["move"; "lift"]} {["hand"; "foot"]}).
Proof.
  destruct (matches_grow_with_word_lists two_clause_doc
              {["lift"]} {["lift"; "move"]} {["move"]} {["move"; "lift"]}
              {["hand"]} {["hand"; "foot"]}) as (H1 & H2 & _).
  - apply (bool_decide_eq_true_1 _). vm_compute. reflexivity.
  - apply (bool_decide_eq_true_1 _). vm_compute. reflexivity.
  - apply (bool_decide_eq_true_1 _). vm_compute. reflexivity.
  - by split.
Defined.

Lemma token_data_lookup (doc : Doc) (token : Token) :
  token ∈ tokens doc → doc !! i token = Some (data token).
Proof. apply elem_of_tokens. Qed.

(** X19.  When the head of a matched object does not stand after it, the
    phrase begins with the head verb, holds the object at its distance from
    the verb, ends with the token at the right edge of the object, and has
    as many tokens as lie between these two positions. *)
Theorem matched_phrase_tokens (doc : Doc) (obj : Token)
    (Hin : obj ∈ tokens doc)
    (Horder : i (head doc obj) ≤ i obj) :
  span_tokens (matched_phrase doc obj) !! 0 = Some (data (head doc obj))
  ∧ span_tokens (matched_phrase doc obj) !! (i obj - i (head doc obj))
    = Some (data obj)
  ∧ last (span_tokens (matched_phrase doc obj)) = Some (data (right_edge doc obj))
  ∧ length (span_tokens (matched_phrase doc obj))
    = i (right_edge doc obj) + 1 - i (head doc obj).
Proof.
  pose proof (right_edge_ge doc obj Hin) as Hge.
  pose proof (right_edge_lt doc obj Hin) as Hlt.
  pose proof (matched_phrase_start doc obj Hin) as Hstart.
  pose proof (matched_phrase_end doc obj Hin ltac:(lia)) as Hend.
  assert (Hlen : length (span_tokens (matched_phrase doc obj))
                 = i (right_edge doc obj) + 1 - i (head doc obj)).
  { rewrite length_span_tokens; [lia|]. rewrite Hend. simpl. lia. }
  unfold span_tokens in *. rewrite Hstart, Hend in *.
  change (span_doc (matched_phrase doc obj)) with doc in *.
  split; [|split; [|split; [|done]]].
  - rewrite lookup_take_lt by lia. rewrite lookup_drop, Nat.add_0_r.
    apply token_data_lookup. by apply head_elem.
  - rewrite lookup_take_lt by lia. rewrite lookup_drop.
    replace (i (head doc obj) + (i obj - i (head doc obj))) with (i obj) by lia.
    by apply token_data_lookup.
  - rewrite last_lookup, Hlen. rewrite lookup_take_lt by lia. rewrite lookup_drop.
    replace (i (head doc obj) + pred (i (right_edge doc obj) + 1 - i (head doc obj)))
      with (i (right_edge doc obj)) by lia.
    apply token_data_lookup. by apply right_edge_elem.
Qed.

Lemma matched_phrase_tokens_witness :
  let obj := mkToken 6 (mkTokenC "hands" true "hand" "NOUN" "dobj" 4) in
  span_tokens (matched_phrase test_doc obj) !! 0 = Some (data (head test_doc obj))
  ∧ span_tokens (matched_phrase test_doc obj) !! (i obj - i (head test_doc obj))
    = Some (data obj)
  ∧ last (span_tokens (matched_phrase test_doc obj))
    = Some (data (right_edge test_doc obj))
  ∧ length (span_tokens (matched_phrase test_doc obj))
    = i (right_edge test_doc obj) + 1 - i (head test_doc obj).
Proof.
  intros obj. apply (matched_phrase_tokens test_doc obj).
  - by_evaluation.
  - vm_compute. lia.
Defined.

(** X20.  Of the slices the source weighs for the phrase, the one it keeps
    lies between the other two: it begins where they begin, reaches at
    least to the object, as [doc[token.head.i : token.i + 1]] does, and at
    most to the right edge of the verb, as
    [doc[token.head.i : token.head.right_edge.i + 1]] does. *)
Theorem matched_phrase_between_alternatives (doc : Doc) (obj : Token)
    (Hin : obj ∈ tokens doc) :
  let manual := doc_slice doc (i (head doc obj)) (i obj + 1) in
  let expansive :=
    doc_slice doc (i (head doc obj)) (i (right_edge doc (head doc obj)) + 1) in
  start manual = start (matched_phrase doc obj)
  ∧ start (matched_phrase doc obj) = start expansive
  ∧ end_ manual ≤ end_ (matched_phrase doc obj)
  ∧ end_ (matched_phrase doc obj) ≤ end_ expansive.
Proof.
  intros manual expansive.
  pose proof (right_edge_ge doc obj Hin) as Hge.
  pose proof (right_edge_lt doc obj Hin) as Hlt.
  pose proof (head_elem doc obj Hin) as Hh.
  pose proof (right_edge_i_head doc obj Hin) as Hmono.
  rewrite <- !right_edge_i_spec in Hmono by done.
  unfold manual, expansive, matched_phrase.
  rewrite !doc_slice_start, !doc_slice_end. lia.
Qed.

Lemma matched_phrase_between_alternatives_witness :
  let obj := mkToken 6 (mkTokenC "hands" true "hand" "NOUN" "dobj" 4) in
  (start (doc_slice test_doc 4 7), end_ (doc_slice test_doc 4 7)) = (4, 7)
  ∧ end_ (matched_phrase test_doc obj)
    ≤ end_ (doc_slice test_doc (i (head test_doc obj))
              (i (right_edge test_doc (head test_doc obj)) + 1)).
Proof.
  intros obj. split; [by_evaluation|].
  apply (matched_phrase_between_alternatives test_doc obj). by_evaluation.
Defined.
